(** * update-color-tokens.py: a shallow embedding

    The script walks a fixed directory, rewrites hexadecimal colour literals
    found between quote characters into CSS design tokens with one
    [re.sub] per mapping rule, writes a file back when its text changed and
    prints a summary.  The development has three layers:

    - the module [Re]: the fragment of Python's backtracking regular
      expressions the script uses (literals, a character set, [.], the lazy
      star, groups, [re.IGNORECASE]) with [re.sub];
    - [COLOR_MAPPINGS] and the text transformation of [process_file], with
      the laws of the colour pattern;
    - the file system, console and exceptions as a small monad, with
      [process_file] and [main] written in it.

    The definitions come first, the laws and the theorems after them.

    A text is a [list ascii]; a character beyond ASCII stands as the bytes of
    its UTF-8 encoding, none of which is a quote, a newline, [#] or a letter,
    so the pattern treats them as [.] does. *)

From Stdlib Require Import Ascii String Numbers.DecimalString.
From Stdlib Require Import Bool Arith Lia ZArith List.
Import ListNotations.

(** ** Texts *)

Definition str := list ascii.

Definition s2l (s : string) : str := list_ascii_of_string s.

Definition nl : ascii := "010"%char.
Definition dq : ascii := "034"%char.
Definition sq : ascii := "039"%char.
Definition hash : ascii := "035"%char.

Definition is_nl (c : ascii) : bool := Ascii.eqb c nl.
Definition is_quote (c : ascii) : bool := Ascii.eqb c dq || Ascii.eqb c sq.
Definition is_hash (c : ascii) : bool := Ascii.eqb c hash.

(** ** Regular expressions, as [re] runs them *)

Module Re.

(** Case folding of one character, as [re.IGNORECASE] folds the ASCII range:
    the capitals [A]..[Z] go to their small letters, nothing else moves. *)
Definition lower (c : ascii) : ascii :=
  let n := nat_of_ascii c in
  if (65 <=? n) && (n <=? 90) then ascii_of_nat (n + 32) else c.

Definition chr_eq (icase : bool) (x c : ascii) : bool :=
  if icase then Ascii.eqb (lower c) (lower x) else Ascii.eqb c x.

(** One-character matchers: a literal, a set [[...]] and the dot, which
    without [re.DOTALL] takes anything but a newline. *)
Inductive atom : Type :=
| Lit (x : ascii)
| OneOf (xs : list ascii)
| Dot.

Definition atom_match (icase : bool) (a : atom) (c : ascii) : bool :=
  match a with
  | Lit x => chr_eq icase x c
  | OneOf xs => existsb (fun x => chr_eq icase x c) xs
  | Dot => negb (is_nl c)
  end.

Inductive regex : Type :=
| Eps
| Atom (a : atom)
| LazyStar (a : atom)
| Seq (r1 r2 : regex)
| Group (n : nat) (r : regex).

(** Captured groups, the last one closed first. *)
Definition caps := list (nat * str).

(** [a*?]: hand the text to the rest of the pattern first, and only when that
    fails take one more character and try again. *)
Fixpoint lazy_star {R : Type} (icase : bool) (a : atom)
    (k : str -> option R) (t : str) : option R :=
  match k t with
  | Some x => Some x
  | None =>
      match t with
      | [] => None
      | c :: t' => if atom_match icase a c then lazy_star icase a k t' else None
      end
  end.

(** The backtracking matcher in continuation-passing style: [k] is the rest
    of the pattern, and its failure sends the search back into [r]. *)
Fixpoint exec {R : Type} (icase : bool) (r : regex) (s : str) (cs : caps)
    (k : str -> caps -> option R) : option R :=
  match r with
  | Eps => k s cs
  | Atom a =>
      match s with
      | [] => None
      | c :: s' => if atom_match icase a c then k s' cs else None
      end
  | LazyStar a => lazy_star icase a (fun t => k t cs) s
  | Seq r1 r2 => exec icase r1 s cs (fun s1 cs1 => exec icase r2 s1 cs1 k)
  | Group n r1 =>
      exec icase r1 s cs
        (fun s1 cs1 => k s1 ((n, firstn (length s - length s1) s) :: cs1))
  end.

(** A match anchored at the head of [s]: the groups and the text left. *)
Definition match_at (icase : bool) (r : regex) (s : str) : option (caps * str) :=
  exec icase r s [] (fun s' cs => Some (cs, s')).

(** The leftmost match: the text skipped before it, the groups, what is left. *)
Fixpoint search (icase : bool) (r : regex) (s : str) : option (str * caps * str) :=
  match match_at icase r s with
  | Some (cs, rest) => Some ([], cs, rest)
  | None =>
      match s with
      | [] => None
      | c :: s' =>
          match search icase r s' with
          | Some (skipped, cs, rest) => Some (c :: skipped, cs, rest)
          | None => None
          end
      end
  end.

(** Replacement templates: text and group references [\n]. *)
Inductive piece : Type :=
| Text (t : str)
| Ref (n : nat).

Fixpoint group (n : nat) (cs : caps) : str :=
  match cs with
  | [] => []
  | (m, t) :: cs' => if Nat.eqb m n then t else group n cs'
  end.

Definition expand (tpl : list piece) (cs : caps) : str :=
  flat_map (fun p => match p with Text t => t | Ref n => group n cs end) tpl.

(** The loop of [re.sub]: copy what precedes the leftmost match, write the
    expansion, go on after the match.  [budget] bounds the number of rounds;
    a match that takes no character makes the loop copy one and move on. *)
Fixpoint sub_loop (budget : nat) (icase : bool) (r : regex) (tpl : list piece)
    (s : str) : str :=
  match budget with
  | 0 => s
  | S b =>
      match search icase r s with
      | None => s
      | Some (skipped, cs, rest) =>
          skipped ++ expand tpl cs ++
          (if length skipped + length rest <? length s
           then sub_loop b icase r tpl rest
           else match rest with
                | [] => []
                | c :: rest' => c :: sub_loop b icase r tpl rest'
                end)
      end
  end.

(** [re.sub(r, tpl, s)]: every round consumes a character, so the length of
    the text bounds the rounds. *)
Definition sub (icase : bool) (r : regex) (tpl : list piece) (s : str) : str :=
  sub_loop (S (length s)) icase r tpl s.

End Re.

(** ** The mapping table and the text transformation of [process_file] *)

(** Color mappings from hex to CSS tokens. *)
Definition COLOR_MAPPINGS : list (str * str) :=
  [ (s2l "#1e1e1e", s2l "var(--color-bg-primary)");
    (s2l "#252526", s2l "var(--color-bg-secondary)");
    (s2l "#2a2d2e", s2l "var(--color-bg-tertiary)");
    (s2l "#3e3e42", s2l "var(--color-border)");
    (s2l "#cccccc", s2l "var(--color-text-primary)");
    (s2l "#858585", s2l "var(--color-text-muted)");
    (s2l "#808080", s2l "var(--color-text-muted)");
    (s2l "#aaaaaa", s2l "var(--color-text-secondary)");
    (s2l "#007acc", s2l "var(--color-accent-green)");
    (s2l "#0e639c", s2l "var(--color-accent-green)");
    (s2l "#4fc1ff", s2l "var(--color-accent-teal)");
    (s2l "#ffa726", s2l "var(--color-accent-yellow)");
    (s2l "#f14c4c", s2l "var(--color-accent-coral)") ].

(** The characters of [hex_color], one literal each: none of them is special
    in a regular expression. *)
Fixpoint literal (hex : str) : Re.regex :=
  match hex with
  | [] => Re.Eps
  | x :: hex' => Re.Seq (Re.Atom (Re.Lit x)) (literal hex')
  end.

Definition quotes : Re.atom := Re.OneOf [dq; sq].

(** The pattern [(["\'].*?)({hex_color})(.*?["\'])]. *)
Definition color_pattern (hex_color : str) : Re.regex :=
  Re.Seq (Re.Group 1 (Re.Seq (Re.Atom quotes) (Re.LazyStar Re.Dot)))
    (Re.Seq (Re.Group 2 (literal hex_color))
       (Re.Group 3 (Re.Seq (Re.LazyStar Re.Dot) (Re.Atom quotes)))).

(** The replacement [\1{token}\3]. *)
Definition color_template (token : str) : list Re.piece :=
  [Re.Ref 1; Re.Text token; Re.Ref 3].

(** One round of the loop over [COLOR_MAPPINGS]: the [re.sub] call with
    [flags=re.IGNORECASE]. *)
Definition replace_color (hex_color token content : str) : str :=
  Re.sub true (color_pattern hex_color) (color_template token) content.

(** The whole loop, each rule working on what the one before left. *)
Definition apply_rules (rules : list (str * str)) (content : str) : str :=
  fold_left (fun c rule => replace_color (fst rule) (snd rule) c) rules content.

Definition apply_mappings (content : str) : str :=
  apply_rules COLOR_MAPPINGS content.


(** ** Paths, as [pathlib] has them *)

Local Open Scope string_scope.

(** A path is the sequence of its parts; an absolute POSIX path starts with
    the part ["/"]. *)
Definition path := list string.

Definition path_eqb (p q : path) : bool :=
  if list_eq_dec string_dec p q then true else false.

Fixpoint is_prefix (b p : path) : bool :=
  match b, p with
  | [], _ => true
  | _ :: _, [] => false
  | x :: b', y :: p' => String.eqb x y && is_prefix b' p'
  end.

(** [str(path)] *)
Definition path_str (p : path) : string :=
  match p with
  | "/" :: rest => "/" ++ String.concat "/" rest
  | _ => String.concat "/" p
  end.

(** [path.name]: the last part. *)
Definition name (p : path) : string := last p EmptyString.

(** [s.rfind(c)]: the index of the last [c], or -1. *)
Fixpoint rfind (c : ascii) (s : str) : Z :=
  match s with
  | [] => (-1)%Z
  | x :: s' =>
      let r := rfind c s' in
      if (0 <=? r)%Z then (r + 1)%Z
      else if Ascii.eqb x c then 0%Z else (-1)%Z
  end.

(** [path.suffix]: the name from its last dot on, when that dot is neither
    the first nor the last character of the name; empty otherwise. *)
Definition suffix (p : path) : string :=
  let nm := s2l (name p) in
  let i := rfind "."%char nm in
  if ((0 <? i)%Z && (i <? Z.of_nat (List.length nm) - 1)%Z)%bool
  then string_of_list_ascii (skipn (Z.to_nat i) nm)
  else EmptyString.

(** [x in path.parts] *)
Definition in_parts (x : string) (p : path) : bool := existsb (String.eqb x) p.

(** Some tail of [n], [n] itself included, satisfies [m]. *)
Fixpoint some_tail (m : str -> bool) (n : str) : bool :=
  m n || match n with [] => false | _ :: n' => some_tail m n' end.

(** Shell-style matching of a file name, for the patterns the script uses:
    [*] stands for any run of characters, anything else for itself. *)
Fixpoint glob_match (pat nm : str) : bool :=
  match pat with
  | [] => match nm with [] => true | _ :: _ => false end
  | p :: pat' =>
      if Ascii.eqb p "*"%char then some_tail (glob_match pat') nm
      else
        match nm with
        | [] => false
        | c :: nm' => Ascii.eqb p c && glob_match pat' nm'
        end
  end.

(** ** The world of the script: disk, console, exceptions *)

(** How writing a file can fail: in [open], before anything has changed (no
    permission, a directory), or later, in [write] or on closing (no space
    left, an I/O error), when [open] has already emptied the file and only
    the first [written] characters of the new text have reached it. *)
Inductive write_failure : Type :=
| AtOpen (e : string)
| AfterOpen (e : string) (written : nat).

Definition message (x : write_failure) : string :=
  match x with
  | AtOpen e => e
  | AfterOpen e _ => e
  end.

(** A file: the text that reading it gives, the exception that opening it
    for reading or decoding it raises, if any (a directory, undecodable
    bytes, no permission), and the way writing it fails, if it does. *)
Record file : Type := mkFile {
  f_text : str;
  f_read_error : option string;
  f_write_error : option write_failure }.

Inductive event : Type :=
| OpenRead (p : path)
| OpenWrite (p : path).

(** The entries of the disk in traversal order, what was printed, and the
    files opened so far. *)
Record world : Type := mkWorld {
  disk : list (path * file);
  stdout : list string;
  opened : list event }.

Inductive outcome (A : Type) : Type :=
| Done (a : A)
| Raised (e : string).
Arguments Done {A} a.
Arguments Raised {A} e.

Definition io (A : Type) : Type := world -> outcome A * world.

Definition ret {A : Type} (a : A) : io A := fun w => (Done a, w).

Definition raise {A : Type} (e : string) : io A := fun w => (Raised e, w).

Definition bind {A B : Type} (m : io A) (k : A -> io B) : io B :=
  fun w =>
    match m w with
    | (Done a, w') => k a w'
    | (Raised e, w') => (Raised e, w')
    end.

(** [try: m  except Exception as e: handler(e)] *)
Definition try_except {A : Type} (m : io A) (handler : string -> io A) : io A :=
  fun w =>
    match m w with
    | (Done a, w') => (Done a, w')
    | (Raised e, w') => handler e w'
    end.

Notation "x <- m ;; k" := (bind m (fun x => k))
  (at level 61, m at next level, right associativity).
Notation "m ;;; k" := (bind m (fun _ => k))
  (at level 61, right associativity).

Definition print (line : string) : io unit :=
  fun w => (Done tt, mkWorld (disk w) (stdout w ++ [line])%list (opened w)).

Fixpoint lookup (p : path) (d : list (path * file)) : option file :=
  match d with
  | [] => None
  | (q, f) :: d' => if path_eqb p q then Some f else lookup p d'
  end.

Fixpoint store (p : path) (text : str) (d : list (path * file)) : list (path * file) :=
  match d with
  | [] => []
  | (q, f) :: d' =>
      if path_eqb p q
      then (q, mkFile text (f_read_error f) (f_write_error f)) :: d'
      else (q, f) :: store p text d'
  end.

Definition log (e : event) (w : world) : world :=
  mkWorld (disk w) (stdout w) (opened w ++ [e])%list.

(** [with open(p, 'r', encoding='utf-8') as f: f.read()] *)
Definition read_text (p : path) : io str :=
  fun w =>
    let w' := log (OpenRead p) w in
    match lookup p (disk w) with
    | None => (Raised ("[Errno 2] No such file or directory: '" ++ path_str p ++ "'"), w')
    | Some f =>
        match f_read_error f with
        | Some e => (Raised e, w')
        | None => (Done (f_text f), w')
        end
    end.

(** [with open(p, 'w', encoding='utf-8') as f: f.write(text)].  Opening
    for writing empties the file, so an exception raised after [open] leaves
    in the file what had been written of [text] by then, and nothing of the
    old text.  The script writes only to a file it has just read; a path
    that is not on the disk stands for one whose directory is gone, and
    opening it fails. *)
Definition write_text (p : path) (text : str) : io unit :=
  fun w =>
    let w' := log (OpenWrite p) w in
    match lookup p (disk w) with
    | None => (Raised ("[Errno 2] No such file or directory: '" ++ path_str p ++ "'"), w')
    | Some f =>
        match f_write_error f with
        | Some (AtOpen e) => (Raised e, w')
        | Some (AfterOpen e written) =>
            (Raised e,
             mkWorld (store p (firstn written text) (disk w')) (stdout w') (opened w'))
        | None => (Done tt, mkWorld (store p text (disk w')) (stdout w') (opened w'))
        end
    end.

(** [p.exists()] *)
Definition path_exists (p : path) : io bool :=
  fun w => (Done (existsb (fun e => is_prefix p (fst e)) (disk w)), w).

(** The entries below [base], at any depth, whose name matches [pat]. *)
Definition found (base : path) (pat : string) (d : list (path * file)) : list path :=
  filter (fun q => is_prefix base q && negb (path_eqb base q) &&
                   glob_match (s2l pat) (s2l (name q)))
    (map fst d).

(** [base.rglob(pat)] *)
Definition rglob (base : path) (pat : string) : io (list path) :=
  fun w => (Done (found base pat (disk w)), w).

(** [p.relative_to(base)] *)
Definition relative_to (p base : path) : io path :=
  if is_prefix base p then ret (skipn (List.length base) p)
  else raise ("'" ++ path_str p ++ "' is not in the subpath of '" ++ path_str base ++ "'").

Fixpoint for_each {X S : Type} (xs : list X) (body : S -> X -> io S) (s : S) : io S :=
  match xs with
  | [] => ret s
  | x :: xs' => s' <- body s x ;; for_each xs' body s'
  end.

Definition str_eqb (a b : str) : bool :=
  if list_eq_dec ascii_dec a b then true else false.

Definition show_nat (n : nat) : string := NilEmpty.string_of_uint (Nat.to_uint n).

(** ** The script *)

(** Process a single file and replace hex colors with tokens. *)
Definition process_file (file_path : path) : io bool :=
  try_except
    (content <- read_text file_path ;;
     let original_content := content in
     let content := apply_mappings content in
     if negb (str_eqb content original_content) then
       write_text file_path content ;;;
       ret true
     else ret false)
    (fun e =>
       print ("Error processing " ++ path_str file_path ++ ": " ++ e) ;;;
       ret false).

(** The two counters of [main]. *)
Record counters : Type := mkCounters {
  files_processed : nat;
  files_updated : nat }.

(** What both loops do with a path that is not skipped. *)
Definition visit (base_dir : path) (c : counters) (file_path : path) : io counters :=
  let files_processed := files_processed c + 1 in
  updated <- process_file file_path ;;
  if updated then
    let files_updated := files_updated c + 1 in
    rel <- relative_to file_path base_dir ;;
    print ("Updated: " ++ path_str rel) ;;;
    ret (mkCounters files_processed files_updated)
  else ret (mkCounters files_processed (files_updated c)).

(** The body of the loop over [*.tsx]. *)
Definition tsx_body (base_dir : path) (c : counters) (file_path : path) : io counters :=
  if in_parts ".next" file_path || in_parts "node_modules" file_path then ret c
  else visit base_dir c file_path.

(** The body of the loop over [*.ts]. *)
Definition ts_body (base_dir : path) (c : counters) (file_path : path) : io counters :=
  if in_parts ".next" file_path || in_parts "node_modules" file_path ||
     String.eqb (suffix file_path) ".d.ts"
  then ret c
  else visit base_dir c file_path.

(** The two loops of [main], one after the other. *)
Definition process_all (base_dir : path) : io counters :=
  tsx <- rglob base_dir "*.tsx" ;;
  c <- for_each tsx (tsx_body base_dir) (mkCounters 0 0) ;;
  ts <- rglob base_dir "*.ts" ;;
  for_each ts (ts_body base_dir) c.

Definition the_base_dir (program_dir : path) : path :=
  (program_dir ++ ["assemble.ai"; "src"; "components"; "cost-plan"])%list.

Definition check_mark : string :=
  String "226"%char (String "156"%char (String "147"%char EmptyString)).

(** [main], with [program_dir] for [Path(__file__).parent]. *)
Definition main (program_dir : path) : io unit :=
  let base_dir := the_base_dir program_dir in
  found <- path_exists base_dir ;;
  if negb found then
    print ("Error: Directory not found: " ++ path_str base_dir)
  else
    c <- process_all base_dir ;;
    print (String nl (check_mark ++ " Processing complete!")) ;;;
    print ("  Files processed: " ++ show_nat (files_processed c)) ;;;
    print ("  Files updated: " ++ show_nat (files_updated c)).

Local Close Scope string_scope.
(** ** What the colour pattern computes

    The pattern is read off as three first-order scans, which the matcher is
    then shown to run: [find_lit] is the lazy star of the first group looking
    for the literal, [to_quote] the lazy star of the third group looking for
    the closing quote. *)

Fixpoint prefix_ci (h t : str) : bool :=
  match h, t with
  | [], _ => true
  | _ :: _, [] => false
  | x :: h', c :: t' => Re.chr_eq true x c && prefix_ci h' t'
  end.

(** Equal up to the case of letters. *)
Definition eq_ci (a b : str) : bool :=
  Nat.eqb (length a) (length b) && prefix_ci b a.

(** Some place of [t] holds the literal, up to case. *)
Fixpoint occurs_ci (h t : str) : bool :=
  prefix_ci h t || match t with [] => false | _ :: t' => occurs_ci h t' end.

Definition no_quote (s : str) : bool := forallb (fun c => negb (is_quote c)) s.
Definition no_nl (s : str) : bool := forallb (fun c => negb (is_nl c)) s.
Definition no_hash (s : str) : bool := forallb (fun c => negb (is_hash c)) s.

(** The text up to the first quote of the line, quote included, and what
    follows it. *)
Fixpoint to_quote (u : str) : option (str * str) :=
  match u with
  | [] => None
  | c :: u' =>
      if is_quote c then Some ([c], u')
      else if is_nl c then None
      else match to_quote u' with
           | Some (g, r) => Some (c :: g, r)
           | None => None
           end
  end.

(** The first place of the line where the literal stands and a quote follows
    on the same line: what is skipped before it, the occurrence, the text up
    to the quote, the rest. *)
Fixpoint find_lit (h t : str) : option (str * str * str * str) :=
  match (if prefix_ci h t then to_quote (skipn (length h) t) else None) with
  | Some (g3, rest) => Some ([], firstn (length h) t, g3, rest)
  | None =>
      match t with
      | [] => None
      | c :: t' =>
          if is_nl c then None
          else match find_lit h t' with
               | Some (sk, occ, g3, rest) => Some (c :: sk, occ, g3, rest)
               | None => None
               end
      end
  end.

(** A literal of the table's shape: [#] first, then neither [#], quote nor
    newline. *)
Definition wf_hex (h : str) : bool :=
  match h with
  | [] => false
  | x :: h' => is_hash x && no_hash h' && no_quote h' && no_nl h'
  end.

Definition wf_token (t : str) : bool := no_hash t && no_quote t && no_nl t.

(** The third group of the pattern. *)
Definition group3 : Re.regex :=
  Re.Group 3 (Re.Seq (Re.LazyStar Re.Dot) (Re.Atom quotes)).

(** An anchored match of the colour pattern, first order. *)
Definition color_match (h s : str) : option (Re.caps * str) :=
  match s with
  | [] => None
  | q :: s1 =>
      if is_quote q then
        match find_lit h s1 with
        | Some (sk, occ, g3, rest) => Some ([(3, g3); (2, occ); (1, q :: sk)], rest)
        | None => None
        end
      else None
  end.

(** A scan's result with [y] appended to the text it ran on. *)
Definition push (y : str) (x : option (str * str)) : option (str * str) :=
  match x with Some (g, r) => Some (g, r ++ y) | None => None end.

Definition push4 (y : str) (x : option (str * str * str * str)) :
    option (str * str * str * str) :=
  match x with
  | Some (sk, occ, g3, rest) => Some (sk, occ, g3, rest ++ y)
  | None => None
  end.

(** ** Notions the statements use *)

(** The part of a text before its first newline, and after its last one. *)
Fixpoint first_line (s : str) : str :=
  match s with
  | [] => []
  | c :: s' => if is_nl c then [] else c :: first_line s'
  end.

Definition last_line (s : str) : str := rev (first_line (rev s)).

(** Some quote character stands both before the occurrence on its line and
    after it on its line: the occurrence lies between matching quotes. *)
Definition between_matching_quotes (pre post : str) : bool :=
  existsb (fun q => existsb (Ascii.eqb q) (last_line pre) &&
                    existsb (Ascii.eqb q) (first_line post)) [dq; sq].

(** What the table's literals and tokens have in common. *)
Definition table_ok (rule : str * str) : bool :=
  wf_hex (fst rule) && wf_token (snd rule) &&
  Nat.eqb (length (fst rule)) 7 && str_eqb (map Re.lower (fst rule)) (fst rule).

(** The exception that handling [p] raises in [w], if any: from reading, or
    from writing back a text that changed. *)
Definition failure (p : path) (w : world) : option string :=
  match lookup p (disk w) with
  | None =>
      Some ("[Errno 2] No such file or directory: '" ++ path_str p ++ "'")%string
  | Some f =>
      match f_read_error f with
      | Some e => Some e
      | None =>
          if negb (str_eqb (apply_mappings (f_text f)) (f_text f))
          then option_map message (f_write_error f)
          else None
      end
  end.

(** Reading [p] succeeds and the table changes its text. *)
Definition changed (p : path) (w : world) : bool :=
  match lookup p (disk w) with
  | None => false
  | Some f =>
      match f_read_error f with
      | Some _ => false
      | None => negb (str_eqb (apply_mappings (f_text f)) (f_text f))
      end
  end.

(** The text that handling [p] leaves in it, when it writes to it at all:
    the new text, or what a write that failed after [open] had written. *)
Definition left_in_file (p : path) (w : world) : option str :=
  match lookup p (disk w) with
  | None => None
  | Some f =>
      match f_read_error f with
      | Some _ => None
      | None =>
          if negb (str_eqb (apply_mappings (f_text f)) (f_text f)) then
            match f_write_error f with
            | None => Some (apply_mappings (f_text f))
            | Some (AtOpen _) => None
            | Some (AfterOpen _ written) =>
                Some (firstn written (apply_mappings (f_text f)))
            end
          else None
      end
  end.

(** The disk after [p] has been handled. *)
Definition disk_after (p : path) (w : world) : list (path * file) :=
  match left_in_file p w with
  | Some t => store p t (disk w)
  | None => disk w
  end.

Definition no_failure (p : path) (w : world) : bool :=
  match failure p w with None => true | Some _ => false end.

Definition error_line (p : path) (e : string) : string :=
  ("Error processing " ++ path_str p ++ ": " ++ e)%string.

Definition updated_line (base p : path) : string :=
  ("Updated: " ++ path_str (skipn (length base) p))%string.

(** The tests that make the loops pass over a path. *)
Definition skip_tsx (p : path) : bool :=
  in_parts ".next" p || in_parts "node_modules" p.

Definition skip_ts (p : path) : bool :=
  in_parts ".next" p || in_parts "node_modules" p || String.eqb (suffix p) ".d.ts".

(** The body of either loop, given its test. *)
Definition step (skip : path -> bool) (base_dir : path) (c : counters)
    (file_path : path) : io counters :=
  if skip file_path then ret c else visit base_dir c file_path.

(** The paths opened for reading, in order. *)
Definition reads (es : list event) : list path :=
  flat_map (fun e => match e with OpenRead p => [p] | OpenWrite _ => [] end) es.

Definition is_updated_line (l : string) : bool := String.prefix "Updated: " l.

(** A file name holds no separator. *)
Definition plain (s : string) : bool := negb (existsb (Ascii.eqb "/"%char) (s2l s)).

Fixpoint distinct (l : list path) : bool :=
  match l with
  | [] => true
  | x :: l' => negb (existsb (path_eqb x) l') && distinct l'
  end.

(** A directory listing: no path twice, and below [base] only names without
    separator. *)
Definition listing_ok (base : path) (d : list (path * file)) : bool :=
  distinct (map fst d) &&
  forallb (fun p => forallb plain (skipn (length base) p)) (map fst d).

(** The run, stopped after [k1] rounds of the first loop (or at its end) and
    [k2] rounds of the second. *)
Definition run_upto (base_dir : path) (k1 k2 : nat) : io counters :=
  bind (rglob base_dir "*.tsx") (fun tsx =>
  bind (for_each (firstn k1 tsx) (tsx_body base_dir) (mkCounters 0 0)) (fun c =>
  bind (rglob base_dir "*.ts") (fun ts =>
  for_each (firstn k2 ts) (ts_body base_dir) c))).

(** ** Sample texts *)

(** The first rule of the table. *)
Definition bg_primary : str := s2l "#1e1e1e".
Definition bg_primary_token : str := s2l "var(--color-bg-primary)".

(** A text between two double quotes. *)
Definition quoted (s : string) : str := dq :: s2l s ++ [dq].

(** A comment with an apostrophe before the literal and a string after it. *)
Definition comment_before : str := s2l "// don't use ".
Definition comment_after : str := s2l " but " ++ quoted "dark".

(** A class attribute naming the same colour twice. *)
Definition twice : str :=
  s2l "className=" ++ quoted "bg-[#1e1e1e] hover:bg-[#1E1E1E]".

(** A project directory and files below the directory the script works on. *)
Definition repo : path := ["/"; "home"; "dev"; "repo"]%string.
Definition cost_plan : path := the_base_dir repo.

Definition at_root (nm : string) : path := cost_plan ++ [nm].

(** A declarations file holding a quoted literal. *)
Definition declarations_only : world :=
  mkWorld [(at_root "types.d.ts", mkFile (quoted "#1e1e1e") None None)] [] [].

(** A component naming the same colour twice in one attribute. *)
Definition one_component : world :=
  mkWorld [(at_root "Sheet.tsx", mkFile twice None None)] [] [].

(** A component that may not be written. *)
Definition read_only_file : file :=
  mkFile (quoted "#1e1e1e") None
    (Some (AtOpen "[Errno 13] Permission denied"%string)).

Definition read_only_component : world :=
  mkWorld [(at_root "Sheet.tsx", read_only_file)] [] [].

(** A component on a full disk: it can be opened for writing, and the write
    fails before any of the new text has reached it. *)
Definition full_disk_file : file :=
  mkFile (quoted "#1e1e1e") None
    (Some (AfterOpen "[Errno 28] No space left on device"%string 0)).

Definition full_disk_component : world :=
  mkWorld [(at_root "Sheet.tsx", full_disk_file)] [] [].

(** A small tree: a component to rewrite, one that cannot be read, one that
    cannot be written, a module without colours, a declarations file and a
    dependency. *)
Definition small_tree : world :=
  mkWorld
    [ (at_root "Sheet.tsx", mkFile twice None None);
      (at_root "Broken.tsx",
       mkFile [] (Some "'utf-8' codec can't decode byte 0xff"%string) None);
      (at_root "Locked.tsx", read_only_file);
      (cost_plan ++ ["lib"; "totals.ts"]%string, mkFile (s2l "export {}") None None);
      (cost_plan ++ ["lib"; "types.d.ts"]%string, mkFile (quoted "#cccccc") None None);
      (cost_plan ++ ["node_modules"; "x"; "index.ts"]%string,
       mkFile (quoted "#cccccc") None None) ]
    [] [].

(** ** Notions for the laws of the table and of the run *)

(** The number of characters of [s] that satisfy [P]. *)
Definition count (P : ascii -> bool) (s : str) : nat := length (filter P s).

(** [s'] is [s] with some occurrences of the literal [h], in any letter
    case, replaced by [tok], and nothing else changed. *)
Inductive substituted (h tok : str) : str -> str -> Prop :=
| substituted_nil : substituted h tok [] []
| substituted_keep c s s' :
    substituted h tok s s' -> substituted h tok (c :: s) (c :: s')
| substituted_occ occ s s' :
    eq_ci occ h = true -> substituted h tok s s' ->
    substituted h tok (occ ++ s) (tok ++ s').

(** A quote character or a line break. *)
Definition is_mark (c : ascii) : bool := is_quote c || is_nl c.

(** The paths opened, for reading or for writing, in order. *)
Definition touched (es : list event) : list path :=
  map (fun e => match e with OpenRead p => p | OpenWrite p => p end) es.

(** The test both loops make before they count a path. *)
Definition in_skipped_directory (p : path) : bool :=
  in_parts ".next" p || in_parts "node_modules" p.


(** A file after [process_file] has handled it: as it was when it cannot be
    read, when the table does not change its text, or when it cannot be
    opened for writing; with the new text when the write succeeds; with what
    had been written of the new text when the write fails after [open]. *)
Definition rewritten (f : file) : file :=
  match f_read_error f with
  | Some _ => f
  | None =>
      if str_eqb (apply_mappings (f_text f)) (f_text f) then f
      else
        match f_write_error f with
        | None => mkFile (apply_mappings (f_text f)) None None
        | Some (AtOpen _) => f
        | Some (AfterOpen e written) =>
            mkFile (firstn written (apply_mappings (f_text f))) None
              (Some (AfterOpen e written))
        end
  end.


(** *** Characters *)

Lemma quotes_match c : Re.atom_match true quotes c = is_quote c.
Proof. destruct c as [[] [] [] [] [] [] [] []]; reflexivity. Qed.

Lemma is_quote_lower c : is_quote (Re.lower c) = is_quote c.
Proof. destruct c as [[] [] [] [] [] [] [] []]; reflexivity. Qed.

Lemma is_nl_lower c : is_nl (Re.lower c) = is_nl c.
Proof. destruct c as [[] [] [] [] [] [] [] []]; reflexivity. Qed.

Lemma is_hash_lower c : is_hash (Re.lower c) = is_hash c.
Proof. destruct c as [[] [] [] [] [] [] [] []]; reflexivity. Qed.

Lemma chr_eq_lower x c : Re.chr_eq true x c = true -> Re.lower c = Re.lower x.
Proof. unfold Re.chr_eq. apply Ascii.eqb_eq. Qed.

Lemma chr_eq_quote x c : Re.chr_eq true x c = true -> is_quote c = is_quote x.
Proof.
  intros H. rewrite <- (is_quote_lower c), (chr_eq_lower _ _ H).
  apply is_quote_lower.
Qed.

Lemma chr_eq_nl x c : Re.chr_eq true x c = true -> is_nl c = is_nl x.
Proof.
  intros H. rewrite <- (is_nl_lower c), (chr_eq_lower _ _ H). apply is_nl_lower.
Qed.

Lemma chr_eq_hash x c : Re.chr_eq true x c = true -> is_hash c = is_hash x.
Proof.
  intros H. rewrite <- (is_hash_lower c), (chr_eq_lower _ _ H).
  apply is_hash_lower.
Qed.

Lemma is_hash_eq c : is_hash c = true -> c = hash.
Proof. apply Ascii.eqb_eq. Qed.

Lemma is_nl_not_quote c : is_nl c = true -> is_quote c = false.
Proof. intros H. apply Ascii.eqb_eq in H. subst c. reflexivity. Qed.

Lemma is_hash_not_nl c : is_hash c = true -> is_nl c = false.
Proof. intros H. apply Ascii.eqb_eq in H. subst c. reflexivity. Qed.

Lemma is_hash_not_quote c : is_hash c = true -> is_quote c = false.
Proof. intros H. apply Ascii.eqb_eq in H. subst c. reflexivity. Qed.

(** *** The matcher runs the scans *)

Lemma firstn_cut (A : Type) (a b : list A) :
  firstn (length (a ++ b) - length b) (a ++ b) = a.
Proof.
  rewrite length_app, Nat.add_sub, firstn_app, Nat.sub_diag, firstn_all.
  simpl. apply app_nil_r.
Qed.

Lemma prefix_ci_length h t : prefix_ci h t = true -> length h <= length t.
Proof.
  revert t. induction h as [|x h IH]; intros [|c t]; simpl; try lia; try discriminate.
  intros H. apply andb_prop in H. destruct H as [_ H]. apply IH in H. lia.
Qed.

Lemma exec_literal (R : Type) h t cs (k : str -> Re.caps -> option R) :
  Re.exec true (literal h) t cs k =
  if prefix_ci h t then k (skipn (length h) t) cs else None.
Proof.
  revert t. induction h as [|x h IH]; intros t.
  - reflexivity.
  - destruct t as [|c t]; [reflexivity|].
    cbn [literal Re.exec Re.atom_match prefix_ci length skipn].
    destruct (Re.chr_eq true x c); cbn [andb]; [apply IH | reflexivity].
Qed.

Lemma firstn_skipn_cut (A : Type) n (t : list A) :
  n <= length t -> firstn (length t - length (skipn n t)) t = firstn n t.
Proof. intros H. rewrite length_skipn. f_equal. lia. Qed.

Lemma lazy_star_unfold (R : Type) ic a (k : str -> option R) t :
  Re.lazy_star ic a k t =
  match k t with
  | Some x => Some x
  | None =>
      match t with
      | [] => None
      | c :: t' => if Re.atom_match ic a c then Re.lazy_star ic a k t' else None
      end
  end.
Proof. destruct t; reflexivity. Qed.

Lemma app_cons_assoc (A : Type) (p : list A) c t : p ++ c :: t = (p ++ [c]) ++ t.
Proof. rewrite <- app_assoc. reflexivity. Qed.

(** The third group on [s], its star having taken [p] and standing at [t]. *)
Lemma lazy_to_quote s p t cs :
  s = p ++ t ->
  Re.lazy_star true Re.Dot
    (fun t0 => Re.exec true (Re.Atom quotes) t0 cs
       (fun s1 cs1 => Some ((3, firstn (length s - length s1) s) :: cs1, s1)))
    t =
  match to_quote t with
  | Some (g, r) => Some ((3, p ++ g) :: cs, r)
  | None => None
  end.
Proof.
  revert p. induction t as [|c t IH]; intros p Hs.
  - reflexivity.
  - rewrite lazy_star_unfold, (IH (p ++ [c])) by (rewrite Hs; apply app_cons_assoc).
    cbn [Re.exec to_quote]. rewrite quotes_match.
    destruct (is_quote c) eqn:Hq.
    + rewrite Hs, app_cons_assoc, firstn_cut. reflexivity.
    + cbn [Re.atom_match]. destruct (is_nl c); cbn [negb]; [reflexivity|].
      destruct (to_quote t) as [[g r]|]; [|reflexivity].
      rewrite <- app_assoc. reflexivity.
Qed.

Lemma exec_group3 u cs :
  Re.exec true group3 u cs (fun s' cs' => Some (cs', s')) =
  match to_quote u with
  | Some (g, r) => Some ((3, g) :: cs, r)
  | None => None
  end.
Proof.
  unfold group3. cbn [Re.exec]. exact (@lazy_to_quote u [] u cs eq_refl).
Qed.

(** What follows the first group: the literal, then the third group. *)
Lemma exec_tail h t cs :
  Re.exec true (Re.Seq (Re.Group 2 (literal h)) group3) t cs
    (fun s' cs' => Some (cs', s')) =
  match (if prefix_ci h t then to_quote (skipn (length h) t) else None) with
  | Some (g, r) => Some ((3, g) :: (2, firstn (length h) t) :: cs, r)
  | None => None
  end.
Proof.
  cbn [Re.exec]. rewrite exec_literal. destruct (prefix_ci h t) eqn:Hp; [|reflexivity].
  rewrite firstn_skipn_cut by (apply prefix_ci_length; exact Hp).
  apply exec_group3.
Qed.

(** The first group's star on [s], having taken [p] and standing at [t]. *)
Lemma lazy_find_lit h s p t :
  s = p ++ t ->
  Re.lazy_star true Re.Dot
    (fun t0 =>
       Re.exec true (Re.Seq (Re.Group 2 (literal h)) group3) t0
         [(1, firstn (length s - length t0) s)]
         (fun s' cs' => Some (cs', s')))
    t =
  match find_lit h t with
  | Some (sk, occ, g3, rest) => Some ([(3, g3); (2, occ); (1, p ++ sk)], rest)
  | None => None
  end.
Proof.
  revert p. induction t as [|c t IH]; intros p Hs.
  - rewrite lazy_star_unfold, exec_tail. cbn [find_lit].
    destruct (if prefix_ci h [] then to_quote (skipn (length h) []) else None)
      as [[g r]|]; [|reflexivity].
    rewrite Hs, firstn_cut, app_nil_r. reflexivity.
  - rewrite lazy_star_unfold, exec_tail, (IH (p ++ [c]))
      by (rewrite Hs; apply app_cons_assoc).
    cbn [find_lit].
    destruct (if prefix_ci h (c :: t) then to_quote (skipn (length h) (c :: t)) else None)
      as [[g r]|].
    + rewrite Hs, firstn_cut, app_nil_r. reflexivity.
    + cbn [Re.atom_match]. destruct (is_nl c); cbn [negb]; [reflexivity|].
      destruct (find_lit h t) as [[[[sk occ] g3] rest]|]; [|reflexivity].
      rewrite <- app_assoc. reflexivity.
Qed.

Lemma match_at_color h s :
  Re.match_at true (color_pattern h) s = color_match h s.
Proof.
  unfold Re.match_at, color_pattern, color_match.
  change (Re.Group 3 (Re.Seq (Re.LazyStar Re.Dot) (Re.Atom quotes))) with group3.
  destruct s as [|q s1]; [reflexivity|].
  cbn [Re.exec]. rewrite quotes_match. destruct (is_quote q); [|reflexivity].
  exact (@lazy_find_lit h (q :: s1) [q] s1 eq_refl).
Qed.

(** *** What the scans return *)

Lemma to_quote_sound u g r :
  to_quote u = Some (g, r) ->
  u = g ++ r /\
  exists b q, g = b ++ [q] /\ is_quote q = true /\ no_quote b = true /\ no_nl b = true.
Proof.
  revert g r. induction u as [|c u IH]; intros g r H; [discriminate|].
  cbn [to_quote] in H. destruct (is_quote c) eqn:Hq.
  - injection H as <- <-. split; [reflexivity|]. exists [], c. auto.
  - destruct (is_nl c) eqn:Hn; [discriminate|].
    destruct (to_quote u) as [[g' r']|]; [|discriminate].
    injection H as <- <-. destruct (IH _ _ eq_refl) as [-> (b & q & -> & Hq' & Hb & Hb')].
    split; [reflexivity|]. exists (c :: b), q.
    unfold no_quote, no_nl in *. cbn [forallb]. rewrite Hq, Hn, Hb, Hb'. auto.
Qed.

Lemma prefix_ci_firstn h t :
  prefix_ci h t = true -> eq_ci (firstn (length h) t) h = true.
Proof.
  intros H. unfold eq_ci. rewrite length_firstn.
  pose proof (prefix_ci_length _ _ H) as Hl.
  rewrite Nat.min_l, Nat.eqb_refl by exact Hl. cbn [andb].
  revert t H Hl. induction h as [|x h IH]; intros [|c t] H Hl; try reflexivity.
  - cbn in Hl. lia.
  - cbn [prefix_ci length firstn] in *. apply andb_prop in H. destruct H as [-> H].
    cbn [andb]. apply IH; [exact H | lia].
Qed.

Lemma find_lit_sound h t sk occ g3 rest :
  find_lit h t = Some (sk, occ, g3, rest) ->
  t = sk ++ occ ++ g3 ++ rest /\ eq_ci occ h = true /\ no_nl sk = true /\
  to_quote (g3 ++ rest) = Some (g3, rest).
Proof.
  revert sk. induction t as [|c t IH]; intros sk H.
  - cbn [find_lit] in H. destruct (prefix_ci h []) eqn:Hp.
    + destruct h; [|discriminate]. discriminate.
    + discriminate.
  - cbn [find_lit] in H.
    destruct (if prefix_ci h (c :: t) then to_quote (skipn (length h) (c :: t)) else None)
      as [[g r]|] eqn:E.
    + injection H as <- <- <- <-.
      destruct (prefix_ci h (c :: t)) eqn:Hp; [|discriminate].
      destruct (to_quote_sound _ _ _ E) as [Hs _].
      repeat split.
      * cbn [app]. rewrite <- Hs. symmetry. apply firstn_skipn.
      * apply prefix_ci_firstn. exact Hp.
      * rewrite <- Hs. exact E.
    + destruct (is_nl c) eqn:Hn; [discriminate|].
      destruct (find_lit h t) as [[[[sk' occ'] g3'] rest']|]; [|discriminate].
      injection H as <- <- <- <-.
      destruct (IH _ eq_refl) as (-> & Ho & Hk & Hq).
      repeat split; auto. unfold no_nl in *. cbn [forallb]. rewrite Hn. exact Hk.
Qed.

Lemma eq_ci_length a b : eq_ci a b = true -> length a = length b.
Proof. unfold eq_ci. intros H. apply andb_prop in H. apply Nat.eqb_eq, H. Qed.

Lemma color_match_shorter h s cs rest :
  color_match h s = Some (cs, rest) -> length rest < length s.
Proof.
  unfold color_match. destruct s as [|q s1]; [discriminate|].
  destruct (is_quote q); [|discriminate].
  destruct (find_lit h s1) as [[[[sk occ] g3] r]|] eqn:E; [|discriminate].
  intros H. injection H as _ <-.
  apply find_lit_sound in E. destruct E as (-> & _).
  cbn [length]. rewrite !length_app. lia.
Qed.

Lemma search_color_shorter h s sk cs rest :
  Re.search true (color_pattern h) s = Some (sk, cs, rest) ->
  length sk + length rest < length s.
Proof.
  revert sk. induction s as [|c s IH]; intros sk H.
  - cbn [Re.search] in H. rewrite match_at_color in H. discriminate.
  - cbn [Re.search] in H. rewrite match_at_color in H.
    destruct (color_match h (c :: s)) as [[cs' r']|] eqn:E.
    + injection H as <- <- <-. apply color_match_shorter in E. cbn [length] in *. lia.
    + destruct (Re.search true (color_pattern h) s) as [[[sk' cs'] r']|]; [|discriminate].
      injection H as <- <- <-. specialize (IH _ eq_refl). cbn [length]. lia.
Qed.

(** The budget of [Re.sub] is never exhausted on the colour pattern. *)
Lemma sub_loop_enough h tpl b1 b2 s :
  length s < b1 -> length s < b2 ->
  Re.sub_loop b1 true (color_pattern h) tpl s =
  Re.sub_loop b2 true (color_pattern h) tpl s.
Proof.
  revert b2 s. induction b1 as [|b1 IH]; intros b2 s H1 H2; [lia|].
  destruct b2 as [|b2]; [lia|]. cbn [Re.sub_loop].
  destruct (Re.search true (color_pattern h) s) as [[[sk cs] rest]|] eqn:E; [|reflexivity].
  pose proof (search_color_shorter _ _ _ _ _ E) as Hl.
  apply Nat.ltb_lt in Hl as Hl'. rewrite Hl'.
  rewrite (IH b2 rest) by lia. reflexivity.
Qed.

Lemma replace_color_search h tok s :
  replace_color h tok s =
  match Re.search true (color_pattern h) s with
  | None => s
  | Some (sk, cs, rest) =>
      sk ++ Re.expand (color_template tok) cs ++ replace_color h tok rest
  end.
Proof.
  unfold replace_color, Re.sub. cbn [Re.sub_loop].
  destruct (Re.search true (color_pattern h) s) as [[[sk cs] rest]|] eqn:E; [|reflexivity].
  pose proof (search_color_shorter _ _ _ _ _ E) as Hl.
  apply Nat.ltb_lt in Hl as Hl'. rewrite Hl'.
  rewrite (sub_loop_enough h (color_template tok) (length s) (S (length rest)) rest) by lia.
  reflexivity.
Qed.

(** The two equations of one substitution pass. *)
Lemma replace_color_nil h tok : replace_color h tok [] = [].
Proof. reflexivity. Qed.

Lemma replace_color_cons h tok c s :
  replace_color h tok (c :: s) =
  if is_quote c then
    match find_lit h s with
    | Some (sk, occ, g3, rest) => c :: sk ++ tok ++ g3 ++ replace_color h tok rest
    | None => c :: replace_color h tok s
    end
  else c :: replace_color h tok s.
Proof.
  rewrite (replace_color_search h tok (c :: s)), (replace_color_search h tok s).
  cbn [Re.search]. rewrite match_at_color. cbn [color_match].
  destruct (is_quote c).
  - destruct (find_lit h s) as [[[[sk occ] g3] rest]|].
    + unfold Re.expand, color_template. cbn [flat_map Re.group Nat.eqb app].
      rewrite app_nil_r, <- !app_assoc. reflexivity.
    + destruct (Re.search true (color_pattern h) s) as [[[sk cs] rest]|]; reflexivity.
  - destruct (Re.search true (color_pattern h) s) as [[[sk cs] rest]|]; reflexivity.
Qed.

(** *** The scans on a text with something appended *)

Lemma no_quote_app a b : no_quote (a ++ b) = no_quote a && no_quote b.
Proof. apply forallb_app. Qed.

Lemma no_nl_app a b : no_nl (a ++ b) = no_nl a && no_nl b.
Proof. apply forallb_app. Qed.

Lemma no_hash_app a b : no_hash (a ++ b) = no_hash a && no_hash b.
Proof. apply forallb_app. Qed.

Lemma to_quote_none y : no_quote y = true -> to_quote y = None.
Proof.
  induction y as [|c y IH]; [reflexivity|]. unfold no_quote. cbn [forallb to_quote].
  intros H. apply andb_prop in H. destruct H as [Hc Hy].
  apply negb_true_iff in Hc. rewrite Hc, (IH Hy). destruct (is_nl c); reflexivity.
Qed.

Lemma to_quote_app_no_quote u y :
  no_quote y = true -> to_quote (u ++ y) = push y (to_quote u).
Proof.
  intros Hy. induction u as [|c u IH]; cbn [app to_quote push].
  - apply to_quote_none, Hy.
  - destruct (is_quote c); [reflexivity|]. destruct (is_nl c); [reflexivity|].
    rewrite IH. destruct (to_quote u) as [[g r]|]; reflexivity.
Qed.

Lemma to_quote_app_nl u b : to_quote (u ++ nl :: b) = push (nl :: b) (to_quote u).
Proof.
  induction u as [|c u IH]; cbn [app to_quote push].
  - reflexivity.
  - destruct (is_quote c); [reflexivity|]. destruct (is_nl c); [reflexivity|].
    rewrite IH. destruct (to_quote u) as [[g r]|]; reflexivity.
Qed.

Lemma to_quote_exact g q r :
  no_quote g = true -> no_nl g = true -> is_quote q = true ->
  to_quote (g ++ q :: r) = Some (g ++ [q], r).
Proof.
  intros Hg Hn Hq. induction g as [|c g IH]; cbn [app to_quote].
  - rewrite Hq. reflexivity.
  - unfold no_quote, no_nl in *. cbn [forallb] in Hg, Hn.
    apply andb_prop in Hg, Hn. destruct Hg as [Hc Hg], Hn as [Hc' Hn].
    apply negb_true_iff in Hc, Hc'. rewrite Hc, Hc', (IH Hg Hn). reflexivity.
Qed.

Lemma prefix_ci_app h t y :
  prefix_ci h t = true ->
  prefix_ci h (t ++ y) = true /\
  skipn (length h) (t ++ y) = skipn (length h) t ++ y /\
  firstn (length h) (t ++ y) = firstn (length h) t.
Proof.
  revert t. induction h as [|x h IH]; intros t H.
  - auto.
  - destruct t as [|c t]; [discriminate|]. cbn [prefix_ci] in H.
    apply andb_prop in H. destruct H as [Hc H]. destruct (IH _ H) as (H1 & H2 & H3).
    cbn [app prefix_ci length skipn firstn]. rewrite Hc, H1, H2, H3. auto.
Qed.

(** A literal that only fits with the help of the appended text ends in it. *)
Lemma prefix_ci_straddle h t y :
  prefix_ci h t = false -> prefix_ci h (t ++ y) = true ->
  exists y0, y = y0 ++ skipn (length h) (t ++ y).
Proof.
  revert t. induction h as [|x h IH]; intros t H1 H2; [discriminate|].
  destruct t as [|c t].
  - exists (firstn (length (x :: h)) y). symmetry. apply firstn_skipn.
  - cbn [app prefix_ci length skipn] in *. apply andb_prop in H2. destruct H2 as [Hc H2].
    rewrite Hc in H1. apply (IH _ H1 H2).
Qed.

Lemma prefix_ci_nl h t b :
  no_nl h = true -> prefix_ci h (t ++ nl :: b) = true -> prefix_ci h t = true.
Proof.
  revert t. induction h as [|x h IH]; intros t Hh H; [reflexivity|].
  unfold no_nl in *. cbn [forallb] in Hh. apply andb_prop in Hh. destruct Hh as [Hx Hh].
  destruct t as [|c t]; cbn [app prefix_ci] in *; apply andb_prop in H; destruct H as [Hc H].
  - apply chr_eq_nl in Hc. rewrite <- Hc in Hx. discriminate.
  - rewrite Hc. apply (IH _ Hh H).
Qed.

Lemma find_lit_none h y : no_quote y = true -> find_lit h y = None.
Proof.
  induction y as [|c y IH]; intros Hy.
  - cbn [find_lit]. destruct (prefix_ci h []); [|reflexivity].
    rewrite skipn_nil. reflexivity.
  - cbn [find_lit]. unfold no_quote in Hy. cbn [forallb] in Hy.
    apply andb_prop in Hy. destruct Hy as [Hc Hy]. rewrite (IH Hy).
    assert (E : (if prefix_ci h (c :: y) then to_quote (skipn (length h) (c :: y)) else None) = None).
    { destruct (prefix_ci h (c :: y)); [|reflexivity]. apply to_quote_none.
      assert (Hcy : no_quote (c :: y) = true)
        by (unfold no_quote; cbn [forallb]; rewrite Hc; exact Hy).
      rewrite <- (firstn_skipn (length h) (c :: y)), no_quote_app in Hcy.
      apply andb_prop in Hcy. apply Hcy. }
    rewrite E. destruct (is_nl c); reflexivity.
Qed.

Lemma find_lit_app_no_quote h t y :
  no_quote y = true -> find_lit h (t ++ y) = push4 y (find_lit h t).
Proof.
  intros Hy.
  assert (Hhead : forall t,
    (if prefix_ci h (t ++ y) then to_quote (skipn (length h) (t ++ y)) else None) =
    push y (if prefix_ci h t then to_quote (skipn (length h) t) else None)).
  { intros t0. destruct (prefix_ci h t0) eqn:Hp.
    - destruct (prefix_ci_app _ _ y Hp) as (-> & -> & _).
      apply to_quote_app_no_quote, Hy.
    - destruct (prefix_ci h (t0 ++ y)) eqn:Hp'; [|reflexivity].
      destruct (prefix_ci_straddle _ _ _ Hp Hp') as [y0 E]. cbn [push].
      apply to_quote_none. rewrite E, no_quote_app in Hy.
      apply andb_prop in Hy. apply Hy. }
  induction t as [|c t IH].
  - cbn [app]. rewrite (find_lit_none h y Hy). cbn [find_lit].
    destruct (prefix_ci h []) eqn:Hp; [|reflexivity].
    rewrite skipn_nil. reflexivity.
  - cbn [app find_lit]. specialize (Hhead (c :: t)). cbn [app] in Hhead. rewrite Hhead.
    destruct (prefix_ci h (c :: t)) eqn:Hp.
    + destruct (prefix_ci_app _ _ y Hp) as (_ & _ & Hf). cbn [app] in Hf. rewrite Hf.
      destruct (to_quote (skipn (length h) (c :: t))) as [[g r]|]; cbn [push push4];
        [reflexivity|].
      destruct (is_nl c); [reflexivity|]. rewrite IH.
      destruct (find_lit h t) as [[[[sk occ] g3] rest]|]; reflexivity.
    + cbn [push]. destruct (is_nl c); [reflexivity|]. rewrite IH.
      destruct (find_lit h t) as [[[[sk occ] g3] rest]|]; reflexivity.
Qed.

Lemma find_lit_app_nl h t b :
  h <> [] -> no_nl h = true ->
  find_lit h (t ++ nl :: b) = push4 (nl :: b) (find_lit h t).
Proof.
  intros Hne Hh.
  assert (Hhead : forall t,
    (if prefix_ci h (t ++ nl :: b) then to_quote (skipn (length h) (t ++ nl :: b)) else None) =
    push (nl :: b) (if prefix_ci h t then to_quote (skipn (length h) t) else None)).
  { intros t0. destruct (prefix_ci h t0) eqn:Hp.
    - destruct (prefix_ci_app _ _ (nl :: b) Hp) as (-> & -> & _). apply to_quote_app_nl.
    - destruct (prefix_ci h (t0 ++ nl :: b)) eqn:Hp'; [|reflexivity].
      apply prefix_ci_nl in Hp'; [congruence | exact Hh]. }
  induction t as [|c t IH].
  - specialize (Hhead []). cbn [app] in *. cbn [find_lit]. rewrite Hhead.
    destruct h as [|x h]; [congruence|]. reflexivity.
  - cbn [app find_lit]. specialize (Hhead (c :: t)). cbn [app] in Hhead. rewrite Hhead.
    destruct (prefix_ci h (c :: t)) eqn:Hp.
    + destruct (prefix_ci_app _ _ (nl :: b) Hp) as (_ & _ & Hf). cbn [app] in Hf. rewrite Hf.
      destruct (to_quote (skipn (length h) (c :: t))) as [[g r]|]; cbn [push push4];
        [reflexivity|].
      destruct (is_nl c); [reflexivity|]. rewrite IH.
      destruct (find_lit h t) as [[[[sk occ] g3] rest]|]; reflexivity.
    + cbn [push]. destruct (is_nl c); [reflexivity|]. rewrite IH.
      destruct (find_lit h t) as [[[[sk occ] g3] rest]|]; reflexivity.
Qed.

Lemma find_lit_absent h t : occurs_ci h t = false -> find_lit h t = None.
Proof.
  induction t as [|c t IH]; cbn [occurs_ci find_lit]; intros H;
    apply orb_false_elim in H; destruct H as [Hp H]; rewrite Hp.
  - reflexivity.
  - rewrite (IH H). destruct (is_nl c); reflexivity.
Qed.

(** *** Laws of one substitution pass *)

Section PassLaws.

Variables h tok : str.
Hypothesis Hwf : wf_hex h = true.

Lemma wf_hex_parts :
  exists x h', h = x :: h' /\ is_hash x = true /\ no_hash h' = true /\
               no_quote h' = true /\ no_nl h' = true.
Proof.
  unfold wf_hex in Hwf. destruct h as [|x h']; [discriminate|].
  apply andb_prop in Hwf. destruct Hwf as [H1 H4].
  apply andb_prop in H1. destruct H1 as [H1 H3].
  apply andb_prop in H1. destruct H1 as [H1 H2].
  exists x, h'. auto.
Qed.

Lemma wf_hex_ne : h <> [].
Proof. destruct wf_hex_parts as (x & h' & -> & _). discriminate. Qed.

Lemma wf_hex_no_nl : no_nl h = true.
Proof.
  destruct wf_hex_parts as (x & h' & -> & Hx & _ & _ & Hn).
  unfold no_nl in *. cbn [forallb]. rewrite (is_hash_not_nl _ Hx). exact Hn.
Qed.

Lemma wf_hex_no_quote : no_quote h = true.
Proof.
  destruct wf_hex_parts as (x & h' & -> & Hx & _ & Hq & _).
  unfold no_quote in *. cbn [forallb]. rewrite (is_hash_not_quote _ Hx). exact Hq.
Qed.

Lemma prefix_ci_needs_hash c t : is_hash c = false -> prefix_ci h (c :: t) = false.
Proof.
  destruct wf_hex_parts as (x & h' & -> & Hx & _). intros Hc. cbn [prefix_ci].
  destruct (Re.chr_eq true x c) eqn:E; [|reflexivity].
  apply chr_eq_hash in E. congruence.
Qed.

Lemma prefix_ci_no_prop (P : ascii -> bool) a b :
  (forall x c, Re.chr_eq true x c = true -> P c = P x) ->
  prefix_ci b a = true -> length a = length b ->
  forallb (fun c => negb (P c)) a = forallb (fun c => negb (P c)) b.
Proof.
  intros HP. revert a. induction b as [|x b IH]; intros [|c a] H Hl;
    try discriminate; [reflexivity|].
  cbn [prefix_ci] in H. apply andb_prop in H. destruct H as [Hc H].
  cbn [forallb]. rewrite (HP _ _ Hc). f_equal. apply IH; [exact H | cbn in Hl; lia].
Qed.

(** An occurrence has the shape of the literal. *)
Lemma eq_ci_no_quote occ : eq_ci occ h = true -> no_quote occ = true.
Proof.
  intros H. pose proof (eq_ci_length _ _ H) as Hl. unfold eq_ci in H.
  apply andb_prop in H. destruct H as [_ H].
  unfold no_quote. rewrite (prefix_ci_no_prop is_quote _ _ chr_eq_quote H Hl).
  apply wf_hex_no_quote.
Qed.

Lemma eq_ci_no_nl occ : eq_ci occ h = true -> no_nl occ = true.
Proof.
  intros H. pose proof (eq_ci_length _ _ H) as Hl. unfold eq_ci in H.
  apply andb_prop in H. destruct H as [_ H].
  unfold no_nl. rewrite (prefix_ci_no_prop is_nl _ _ chr_eq_nl H Hl).
  apply wf_hex_no_nl.
Qed.

Lemma eq_ci_prefix occ u :
  eq_ci occ h = true ->
  prefix_ci h (occ ++ u) = true /\ skipn (length h) (occ ++ u) = u /\
  firstn (length h) (occ ++ u) = occ.
Proof.
  intros H. pose proof (eq_ci_length _ _ H) as Hl. unfold eq_ci in H.
  apply andb_prop in H. destruct H as [_ H].
  destruct (prefix_ci_app _ _ u H) as (H1 & H2 & H3).
  rewrite H1, H2, H3, <- Hl, skipn_all, firstn_all. auto.
Qed.

(** The first group's scan passes over text without [#] and stops at the
    first occurrence that a quote follows, unless a newline comes first. *)
Lemma find_lit_first a occ u g3 rest :
  no_hash a = true -> eq_ci occ h = true -> to_quote u = Some (g3, rest) ->
  find_lit h (a ++ occ ++ u) = if no_nl a then Some (a, occ, g3, rest) else None.
Proof.
  intros Ha Ho Hu. induction a as [|c a IH].
  - cbn [app no_nl forallb]. destruct (eq_ci_prefix _ u Ho) as (H1 & H2 & H3).
    destruct (occ ++ u) as [|c t] eqn:E; cbn [find_lit]; rewrite H1, H2, Hu, H3; reflexivity.
  - unfold no_hash, no_nl in *. cbn [forallb] in Ha |- *.
    apply andb_prop in Ha. destruct Ha as [Hc Ha]. apply negb_true_iff in Hc.
    cbn [app find_lit]. rewrite (prefix_ci_needs_hash _ _ Hc).
    destruct (is_nl c); cbn [negb andb]; [reflexivity|].
    rewrite (IH Ha). destruct (forallb (fun c0 => negb (is_nl c0)) a); reflexivity.
Qed.

(** Induction on the length of the text, the way the loop of [re.sub] goes. *)
Lemma str_length_ind (P : str -> Prop) :
  (forall s, (forall s', length s' < length s -> P s') -> P s) -> forall s, P s.
Proof.
  intros H s. remember (length s) as n eqn:E. revert s E.
  induction n as [n IH] using lt_wf_ind. intros s ->. apply H.
  intros s' Hl. apply (IH _ Hl _ eq_refl).
Qed.

(** Text without quotes is copied. *)
Lemma replace_color_no_quote x y :
  no_quote x = true -> replace_color h tok (x ++ y) = x ++ replace_color h tok y.
Proof.
  intros Hx. induction x as [|c x IH]; [reflexivity|].
  unfold no_quote in Hx. cbn [forallb] in Hx. apply andb_prop in Hx.
  destruct Hx as [Hc Hx]. apply negb_true_iff in Hc.
  cbn [app]. rewrite replace_color_cons, Hc, (IH Hx). reflexivity.
Qed.

Lemma replace_color_id_no_quote x :
  no_quote x = true -> replace_color h tok x = x.
Proof.
  intros Hx. rewrite <- (app_nil_r x) at 1.
  rewrite (replace_color_no_quote _ _ Hx), replace_color_nil. apply app_nil_r.
Qed.

(** Where the literal does not occur, nothing changes. *)
Lemma replace_color_absent s : occurs_ci h s = false -> replace_color h tok s = s.
Proof.
  induction s as [|c s IH]; [reflexivity|]. cbn [occurs_ci]. intros H.
  apply orb_false_elim in H. destruct H as [_ H].
  rewrite replace_color_cons, (find_lit_absent _ _ H), (IH H).
  destruct (is_quote c); reflexivity.
Qed.

(** The pass works line by line. *)
Lemma replace_color_lines a b :
  replace_color h tok (a ++ nl :: b) =
  replace_color h tok a ++ nl :: replace_color h tok b.
Proof.
  revert a. refine (str_length_ind _ _). intros a IH. destruct a as [|c a].
  - cbn [app]. rewrite replace_color_cons. reflexivity.
  - cbn [app]. rewrite !replace_color_cons.
    rewrite (find_lit_app_nl _ _ _ wf_hex_ne wf_hex_no_nl).
    destruct (is_quote c).
    + destruct (find_lit h a) as [[[[sk occ] g3] rest]|] eqn:E; cbn [push4].
      * apply find_lit_sound in E. destruct E as (Ea & _).
        rewrite IH by (rewrite Ea; cbn [length]; rewrite !length_app; lia).
        cbn [app]. rewrite <- !app_assoc. reflexivity.
      * rewrite IH by (cbn [length]; lia). reflexivity.
    + rewrite IH by (cbn [length]; lia). reflexivity.
Qed.

(** Text without quotes at the end is out of reach of every match. *)
Lemma replace_color_trailing p y :
  no_quote y = true -> replace_color h tok (p ++ y) = replace_color h tok p ++ y.
Proof.
  intros Hy. revert p. refine (str_length_ind _ _). intros p IH. destruct p as [|c p].
  - cbn [app]. rewrite replace_color_nil. apply replace_color_id_no_quote, Hy.
  - cbn [app]. rewrite !replace_color_cons, (find_lit_app_no_quote _ _ _ Hy).
    destruct (is_quote c).
    + destruct (find_lit h p) as [[[[sk occ] g3] rest]|] eqn:E; cbn [push4].
      * apply find_lit_sound in E. destruct E as (Ea & _).
        rewrite IH by (rewrite Ea; cbn [length]; rewrite !length_app; lia).
        cbn [app]. rewrite <- !app_assoc. reflexivity.
      * rewrite IH by (cbn [length]; lia). reflexivity.
    + rewrite IH by (cbn [length]; lia). reflexivity.
Qed.

(** The first occurrence after a quote on its line is replaced, and the
    match runs on to the next quote of the line. *)
Lemma replace_color_first pre q1 a occ g q2 post :
  no_hash pre = true -> no_hash a = true -> no_nl a = true ->
  is_quote q1 = true -> eq_ci occ h = true ->
  no_quote g = true -> no_nl g = true -> is_quote q2 = true ->
  replace_color h tok (pre ++ q1 :: a ++ occ ++ g ++ q2 :: post) =
  pre ++ q1 :: a ++ tok ++ g ++ q2 :: replace_color h tok post.
Proof.
  intros Hpre Ha Hna Hq1 Ho Hg Hng Hq2.
  pose proof (to_quote_exact _ _ post Hg Hng Hq2) as Hu.
  induction pre as [|c pre IH].
  - cbn [app]. rewrite replace_color_cons, Hq1.
    rewrite (find_lit_first _ _ _ _ _ Ha Ho Hu), Hna. rewrite <- !app_assoc. reflexivity.
  - unfold no_hash in Hpre. cbn [forallb] in Hpre. apply andb_prop in Hpre.
    destruct Hpre as [Hc Hpre]. cbn [app]. rewrite replace_color_cons, (IH Hpre).
    destruct (is_quote c); [|reflexivity].
    assert (Hh1 : is_hash q1 = false).
    { destruct (is_hash q1) eqn:E; [|reflexivity].
      apply is_hash_not_quote in E. congruence. }
    assert (Hpa : no_hash (pre ++ q1 :: a) = true).
    { rewrite no_hash_app. unfold no_hash in *. cbn [forallb].
      rewrite Hpre, Hh1, Ha. reflexivity. }
    replace (pre ++ q1 :: a ++ occ ++ g ++ q2 :: post)
      with ((pre ++ q1 :: a) ++ occ ++ g ++ q2 :: post)
      by (rewrite <- app_assoc; reflexivity).
    rewrite (find_lit_first _ _ _ _ _ Hpa Ho Hu).
    destruct (no_nl (pre ++ q1 :: a)); [|reflexivity].
    rewrite <- !app_assoc. reflexivity.
Qed.

End PassLaws.

(** ** The mapping table *)

Lemma table_facts hex tok :
  In (hex, tok) COLOR_MAPPINGS ->
  wf_hex hex = true /\ wf_token tok = true /\ length hex = 7 /\
  map Re.lower hex = hex.
Proof.
  intros H.
  assert (A : forallb table_ok COLOR_MAPPINGS = true) by reflexivity.
  rewrite forallb_forall in A. specialize (A _ H). unfold table_ok in A.
  cbn [fst snd] in A.
  apply andb_prop in A. destruct A as [A A4].
  apply andb_prop in A. destruct A as [A A3].
  apply andb_prop in A. destruct A as [A1 A2].
  repeat split; auto.
  - apply Nat.eqb_eq, A3.
  - unfold str_eqb in A4.
    destruct (list_eq_dec ascii_dec (map Re.lower hex) hex); [assumption | discriminate].
Qed.

(** *** Lines *)

Lemma first_line_split s :
  exists r, s = first_line s ++ r /\ (r = [] \/ exists b, r = nl :: b).
Proof.
  induction s as [|c s IH].
  - exists []. auto.
  - cbn [first_line]. destruct (is_nl c) eqn:Hc.
    + apply Ascii.eqb_eq in Hc. subst c. exists (nl :: s). split; [reflexivity|].
      right. exists s. reflexivity.
    + destruct IH as (r & E & Hr). exists r. split; [|exact Hr].
      cbn [app]. rewrite <- E. reflexivity.
Qed.

Lemma last_line_split s :
  exists p, s = p ++ last_line s /\ (p = [] \/ exists a, p = a ++ [nl]).
Proof.
  unfold last_line. destruct (first_line_split (rev s)) as (r & E & Hr).
  exists (rev r). split.
  - rewrite <- rev_app_distr, <- E, rev_involutive. reflexivity.
  - destruct Hr as [-> | [b ->]]; [left; reflexivity|].
    right. exists (rev b). reflexivity.
Qed.

Section Survival.

Variables h tok : str.
Hypothesis Hwf : wf_hex h = true.

(** An occurrence with no quote before it on its line stays, and so does one
    with no quote after it on its line; the text around it is rewritten as
    if it stood alone. *)
Lemma occurrence_survives pre occ post :
  eq_ci occ h = true ->
  no_quote (last_line pre) = true \/ no_quote (first_line post) = true ->
  replace_color h tok (pre ++ occ ++ post) =
  replace_color h tok pre ++ occ ++ replace_color h tok post.
Proof.
  intros Ho [Hq | Hq].
  - pose proof (eq_ci_no_quote h Hwf occ Ho) as Hoq.
    destruct (last_line_split pre) as (p & E & Hp).
    set (L := last_line pre) in *.
    assert (T : replace_color h tok (L ++ occ ++ post) =
                L ++ occ ++ replace_color h tok post).
    { rewrite (replace_color_no_quote h tok _ _ Hq).
      rewrite (replace_color_no_quote h tok _ _ Hoq). reflexivity. }
    destruct Hp as [-> | [a ->]].
    + cbn [app] in E. rewrite E, T.
      rewrite (replace_color_id_no_quote h tok _ Hq). reflexivity.
    + rewrite E, <- !app_assoc. cbn [app].
      rewrite !(replace_color_lines h tok Hwf), T.
      rewrite (replace_color_id_no_quote h tok _ Hq), <- !app_assoc. reflexivity.
  - pose proof (eq_ci_no_quote h Hwf occ Ho) as Hoq.
    destruct (first_line_split post) as (r & E & Hr).
    set (F := first_line post) in *.
    assert (HoF : no_quote (occ ++ F) = true) by (rewrite no_quote_app, Hoq, Hq; reflexivity).
    assert (T : replace_color h tok (pre ++ occ ++ F) =
                replace_color h tok pre ++ occ ++ F).
    { rewrite (replace_color_trailing h tok _ _ HoF). reflexivity. }
    destruct Hr as [-> | [b ->]].
    + rewrite app_nil_r in E. rewrite E, T.
      rewrite (replace_color_id_no_quote h tok _ Hq). reflexivity.
    + rewrite E.
      replace (pre ++ occ ++ F ++ nl :: b) with ((pre ++ occ ++ F) ++ nl :: b)
        by (rewrite <- !app_assoc; reflexivity).
      rewrite !(replace_color_lines h tok Hwf), T.
      rewrite (replace_color_id_no_quote h tok _ Hq), <- !app_assoc. reflexivity.
Qed.

(** Every round of the pass rewrites an occurrence that has a quote before
    it and a quote after it, all on one line. *)
Lemma match_is_between_quotes s sk cs rest :
  Re.search true (color_pattern h) s = Some (sk, cs, rest) ->
  exists q1 g occ g' q2,
    s = sk ++ q1 :: g ++ occ ++ g' ++ q2 :: rest /\
    is_quote q1 = true /\ is_quote q2 = true /\ eq_ci occ h = true /\
    no_nl g = true /\ no_nl g' = true /\
    Re.expand (color_template tok) cs = q1 :: g ++ tok ++ g' ++ [q2].
Proof.
  revert sk. induction s as [|c s IH]; intros sk H.
  - cbn [Re.search] in H. rewrite match_at_color in H. discriminate.
  - cbn [Re.search] in H. rewrite match_at_color in H. cbn [color_match] in H.
    assert (Hrec : match Re.search true (color_pattern h) s with
                   | Some (skipped, cs0, rest0) => Some (c :: skipped, cs0, rest0)
                   | None => None
                   end = Some (sk, cs, rest) ->
                   exists q1 g occ g' q2,
                     c :: s = sk ++ q1 :: g ++ occ ++ g' ++ q2 :: rest /\
                     is_quote q1 = true /\ is_quote q2 = true /\ eq_ci occ h = true /\
                     no_nl g = true /\ no_nl g' = true /\
                     Re.expand (color_template tok) cs = q1 :: g ++ tok ++ g' ++ [q2]).
    { destruct (Re.search true (color_pattern h) s) as [[[sk' cs'] r']|]; [|discriminate].
      intros E. injection E as <- <- <-.
      destruct (IH _ eq_refl) as (q1 & g & occ & g' & q2 & -> & R).
      exists q1, g, occ, g', q2. split; [reflexivity | exact R]. }
    destruct (is_quote c) eqn:Hc; [|exact (Hrec H)].
    destruct (find_lit h s) as [[[[k occ] g3] r]|] eqn:E; [|exact (Hrec H)].
    injection H as <- <- <-.
    apply find_lit_sound in E. destruct E as (-> & Ho & Hk & Hq).
    apply to_quote_sound in Hq. destruct Hq as (_ & b & q & -> & Hq & _ & Hb).
    exists c, k, occ, b, q. repeat split; auto.
    + cbn [app]. rewrite <- !app_assoc. reflexivity.
    + unfold Re.expand, color_template. cbn [flat_map Re.group Nat.eqb app].
      rewrite app_nil_r. reflexivity.
Qed.

(** The first occurrence on a line, after a quote, with a quote following on
    the line: it is replaced, and the round takes the text up to that quote. *)
Lemma first_occurrence_replaced pre q1 a occ g q2 post :
  no_hash (last_line pre) = true -> no_hash a = true -> no_nl a = true ->
  is_quote q1 = true -> eq_ci occ h = true ->
  no_quote g = true -> no_nl g = true -> is_quote q2 = true ->
  replace_color h tok (pre ++ q1 :: a ++ occ ++ g ++ q2 :: post) =
  replace_color h tok pre ++ q1 :: a ++ tok ++ g ++ q2 :: replace_color h tok post.
Proof.
  intros HL Ha Hna Hq1 Ho Hg Hng Hq2.
  destruct (last_line_split pre) as (p & E & Hp).
  set (L := last_line pre) in *.
  pose proof (replace_color_first h tok Hwf L q1 a occ g q2 post
                HL Ha Hna Hq1 Ho Hg Hng Hq2) as T.
  assert (HLid : replace_color h tok L = L).
  { apply replace_color_absent.
    clear - HL Hwf. induction L as [|c L IH]; cbn [occurs_ci].
    - destruct h; [discriminate | reflexivity].
    - unfold no_hash in HL. cbn [forallb] in HL. apply andb_prop in HL.
      destruct HL as [Hc HL]. apply negb_true_iff in Hc.
      rewrite (prefix_ci_needs_hash h Hwf _ _ Hc), (IH HL). reflexivity. }
  destruct Hp as [-> | [x ->]].
  - cbn [app] in E. rewrite E, T, HLid. reflexivity.
  - rewrite E, <- !app_assoc. cbn [app].
    rewrite !(replace_color_lines h tok Hwf), T, HLid, <- !app_assoc. reflexivity.
Qed.

End Survival.

(** *** Occurrences of other literals *)

Lemma eq_ci_map_lower a b : eq_ci a b = true -> map Re.lower a = map Re.lower b.
Proof.
  unfold eq_ci. intros H. apply andb_prop in H. destruct H as [Hl H].
  apply Nat.eqb_eq in Hl. revert a Hl H.
  induction b as [|x b IH]; intros [|c a] Hl H; try discriminate; [reflexivity|].
  cbn [prefix_ci] in H. apply andb_prop in H. destruct H as [Hc H].
  cbn [map]. rewrite (chr_eq_lower _ _ Hc). f_equal. apply IH; [cbn in Hl; lia | exact H].
Qed.

Lemma prefix_ci_app_inv h t y :
  prefix_ci h (t ++ y) = true -> length h <= length t -> prefix_ci h t = true.
Proof.
  revert t. induction h as [|x h IH]; intros [|c t] H Hl; try reflexivity.
  - cbn in Hl. lia.
  - cbn [app prefix_ci] in *. apply andb_prop in H. destruct H as [-> H].
    cbn [andb]. apply IH; [exact H | cbn in Hl; lia].
Qed.

Section Others.

Variable h : str.
Hypothesis Hwf : wf_hex h = true.

Lemma occurs_ci_skip x y : no_hash x = true -> occurs_ci h (x ++ y) = occurs_ci h y.
Proof.
  intros Hx. induction x as [|c x IH]; [reflexivity|].
  unfold no_hash in Hx. cbn [forallb] in Hx. apply andb_prop in Hx.
  destruct Hx as [Hc Hx]. apply negb_true_iff in Hc.
  cbn [app occurs_ci]. rewrite (prefix_ci_needs_hash h Hwf _ _ Hc). apply IH, Hx.
Qed.

Lemma occurs_ci_no_hash x : no_hash x = true -> occurs_ci h x = false.
Proof.
  intros Hx. rewrite <- (app_nil_r x), (occurs_ci_skip _ _ Hx). cbn [occurs_ci].
  destruct h; [discriminate | reflexivity].
Qed.

(** An occurrence of another literal of the same length is no occurrence
    of this one. *)
Lemma occurs_ci_other h0 occ y :
  wf_hex h0 = true -> length h = length h0 -> eq_ci occ h0 = true ->
  map Re.lower h0 <> map Re.lower h ->
  occurs_ci h (occ ++ y) = occurs_ci h y.
Proof.
  intros Hwf0 Hlen Ho Hne.
  pose proof (eq_ci_length _ _ Ho) as Hl.
  destruct occ as [|o occ'].
  { destruct h0; [discriminate | discriminate]. }
  cbn [app occurs_ci].
  assert (Hp : prefix_ci h (o :: occ' ++ y) = false).
  { destruct (prefix_ci h (o :: occ' ++ y)) eqn:E; [|reflexivity].
    exfalso. apply Hne.
    apply (prefix_ci_app_inv h (o :: occ') y) in E; [|lia].
    assert (E' : eq_ci (o :: occ') h = true).
    { unfold eq_ci. rewrite E, andb_true_r. apply Nat.eqb_eq. lia. }
    apply eq_ci_map_lower in E', Ho. congruence. }
  rewrite Hp. cbn [orb]. apply occurs_ci_skip.
  destruct h0 as [|x0 h0']; [discriminate|].
  unfold eq_ci in Ho. apply andb_prop in Ho. destruct Ho as [_ Ho].
  cbn [prefix_ci] in Ho. apply andb_prop in Ho. destruct Ho as [_ Ho].
  unfold no_hash. rewrite (prefix_ci_no_prop is_hash occ' h0' chr_eq_hash Ho).
  - unfold wf_hex in Hwf0. apply andb_prop in Hwf0. destruct Hwf0 as [H1 _].
    apply andb_prop in H1. destruct H1 as [H1 _].
    apply andb_prop in H1. destruct H1 as [_ H1]. exact H1.
  - cbn in Hl. lia.
Qed.

End Others.

Lemma apply_rules_absent rules s :
  (forall r, In r rules -> occurs_ci (fst r) s = false) ->
  apply_rules rules s = s.
Proof.
  unfold apply_rules. induction rules as [|r rules IH]; intros H; [reflexivity|].
  cbn [fold_left]. rewrite (replace_color_absent _ _ s (H r (or_introl eq_refl))).
  apply IH.
  intros r' Hr'. apply H. right. exact Hr'.
Qed.

Lemma apply_rules_app l1 l2 s :
  apply_rules (l1 ++ l2) s = apply_rules l2 (apply_rules l1 s).
Proof. apply fold_left_app. Qed.

Lemma table_distinct : NoDup (map fst COLOR_MAPPINGS).
Proof.
  repeat constructor; cbn; intros H;
    repeat (destruct H as [H|H]; [discriminate H|]); exact H.
Qed.


(** ** One file *)

Lemma store_paths p t d : map fst (store p t d) = map fst d.
Proof.
  induction d as [|[q f] d IH]; [reflexivity|]. cbn [store].
  destruct (path_eqb p q); cbn [map fst]; [reflexivity|]. rewrite IH. reflexivity.
Qed.

(** [process_file] in one equation: it never raises, opens the file for
    reading, opens it for writing when the text changed, and prints one line
    when either of them failed. *)
Lemma process_file_eq p w :
  process_file p w =
  (Done (changed p w && no_failure p w),
   mkWorld (disk_after p w)
     (stdout w ++ match failure p w with
                  | Some e => [error_line p e]
                  | None => []
                  end)
     (opened w ++ OpenRead p :: (if changed p w then [OpenWrite p] else []))).
Proof.
  unfold process_file, try_except, bind, read_text, write_text, print, ret, log,
    changed, no_failure, failure, disk_after, left_in_file, error_line.
  cbn [disk stdout opened].
  destruct (lookup p (disk w)) as [f|] eqn:L.
  - destruct (f_read_error f) as [e|] eqn:R.
    + cbn [disk stdout opened andb]. reflexivity.
    + cbn [disk stdout opened].
      generalize (apply_mappings (f_text f)). intros t.
      destruct (negb (str_eqb t (f_text f))) eqn:C.
      * cbn [disk stdout opened]. rewrite L.
        destruct (f_write_error f) as [[e|e n]|] eqn:W;
          cbn [disk stdout opened andb option_map message];
          rewrite <- ?app_assoc, ?app_nil_r; reflexivity.
      * cbn [disk stdout opened andb]. rewrite ?app_nil_r. reflexivity.
  - cbn [disk stdout opened andb]. reflexivity.
Qed.

Lemma is_prefix_skipn base p :
  is_prefix base p = true -> p = base ++ skipn (length base) p.
Proof.
  revert p. induction base as [|x base IH]; intros p H; [reflexivity|].
  destruct p as [|y p]; [discriminate|]. cbn [is_prefix] in H.
  apply andb_prop in H. destruct H as [Hx H]. apply String.eqb_eq in Hx. subst y.
  cbn [length skipn app]. f_equal. apply IH, H.
Qed.

(** The step of both loops on a path below the base directory. *)
Lemma visit_eq base c p w :
  is_prefix base p = true ->
  visit base c p w =
  (Done (mkCounters (files_processed c + 1)
           (files_updated c + if changed p w && no_failure p w then 1 else 0)),
   mkWorld (disk_after p w)
     (stdout w ++ match failure p w with
                  | Some e => [error_line p e]
                  | None => if changed p w then [updated_line base p] else []
                  end)
     (opened w ++ OpenRead p :: (if changed p w then [OpenWrite p] else []))).
Proof.
  intros Hp. unfold visit, bind. rewrite process_file_eq.
  unfold no_failure. destruct (failure p w) as [e|] eqn:F.
  - rewrite andb_false_r. unfold ret. rewrite Nat.add_0_r. destruct c; reflexivity.
  - rewrite andb_true_r. destruct (changed p w) eqn:C.
    + unfold relative_to. rewrite Hp. unfold ret, print, updated_line.
      cbn [disk stdout opened]. rewrite app_nil_r. reflexivity.
    + unfold ret. rewrite Nat.add_0_r. destruct c; reflexivity.
Qed.

(** ** The loops *)

Lemma error_line_not_updated p e : is_updated_line (error_line p e) = false.
Proof. reflexivity. Qed.

Lemma updated_line_is_updated base p : is_updated_line (updated_line base p) = true.
Proof.
  unfold is_updated_line, updated_line. cbn.
  destruct (path_str (skipn (length base) p)); reflexivity.
Qed.

Lemma reads_app a b : reads (a ++ b) = reads a ++ reads b.
Proof. apply flat_map_app. Qed.

(** What a loop over paths below the base directory does, whatever happens
    to the files: it ends, reads the paths its test lets through, in order,
    counts them, and prints one [Updated:] line for each path it counts as
    updated. *)
Lemma loop_spec skip base xs :
  Forall (fun p => is_prefix base p = true) xs ->
  forall c w, exists c' w' lines evs ups,
    for_each xs (step skip base) c w = (Done c', w') /\
    map fst (disk w') = map fst (disk w) /\
    stdout w' = stdout w ++ lines /\
    opened w' = opened w ++ evs /\
    reads evs = filter (fun p => negb (skip p)) xs /\
    files_processed c' = files_processed c + length (reads evs) /\
    filter is_updated_line lines = map (updated_line base) ups /\
    files_updated c' = files_updated c + length ups /\
    length ups <= length (reads evs) /\
    incl ups xs /\ (NoDup xs -> NoDup ups).
Proof.
  induction xs as [|x xs IH]; intros Hxs c w.
  - exists c, w, [], [], []. cbn. rewrite !app_nil_r, !Nat.add_0_r.
    repeat split; auto using incl_nil_l, NoDup_nil.
  - inversion Hxs as [|? ? Hx Hxs']; subst.
    cbn [for_each]. unfold bind, step at 1. cbn [filter].
    destruct (skip x) eqn:Sk.
    + cbn [negb ret].
      destruct (IH Hxs' c w) as (c' & w' & lines & evs & ups & E & R).
      destruct R as (Hd & Ho & Hop & Hr & Hfp & Hl & Hfu & Hle & Hin & Hnd).
      exists c', w', lines, evs, ups. repeat split; auto.
      * apply incl_tl, Hin.
      * intros N. apply Hnd. inversion N; assumption.
    + rewrite (visit_eq base c x w Hx). cbn [negb].
      set (b := changed x w && no_failure x w).
      set (c1 := mkCounters (files_processed c + 1)
                   (files_updated c + if b then 1 else 0)).
      set (w1 := mkWorld _ _ _).
      destruct (IH Hxs' c1 w1) as (c' & w' & lines & evs & ups & E & R).
      destruct R as (Hd & Ho & Hop & Hr & Hfp & Hl & Hfu & Hle & Hin & Hnd).
      exists c', w',
        (match failure x w with
         | Some e => [error_line x e]
         | None => if changed x w then [updated_line base x] else []
         end ++ lines),
        (OpenRead x :: (if changed x w then [OpenWrite x] else []) ++ evs),
        (if b then x :: ups else ups).
      assert (Hrd : reads (OpenRead x :: (if changed x w then [OpenWrite x] else []) ++ evs)
                    = x :: reads evs).
      { cbn [reads flat_map app]. f_equal. fold (reads ((if changed x w then [OpenWrite x] else []) ++ evs)).
        rewrite reads_app. destruct (changed x w); reflexivity. }
      split; [exact E|].
      split.
      { rewrite Hd. subst w1. cbn [disk]. unfold disk_after.
        destruct (left_in_file x w); [apply store_paths | reflexivity]. }
      split.
      { rewrite Ho. subst w1. cbn [stdout]. rewrite <- app_assoc. reflexivity. }
      split.
      { rewrite Hop. subst w1. cbn [opened]. rewrite <- app_assoc. reflexivity. }
      split.
      { rewrite Hrd, Hr. reflexivity. }
      split.
      { rewrite Hfp, Hrd. subst c1. cbn [files_processed length]. lia. }
      split.
      { rewrite filter_app, Hl. subst b. unfold no_failure.
        destruct (failure x w) as [e|].
        - rewrite andb_false_r. cbn [filter]. rewrite error_line_not_updated. reflexivity.
        - rewrite andb_true_r. destruct (changed x w); [|reflexivity].
          cbn [filter]. rewrite updated_line_is_updated. reflexivity. }
      split.
      { rewrite Hfu. subst c1. cbn [files_updated]. destruct b; cbn [length]; lia. }
      split.
      { rewrite Hrd. destruct b; cbn [length]; lia. }
      split.
      { destruct b.
        - intros y [<- | Hy]; [left; reflexivity | right; apply Hin, Hy].
        - apply incl_tl, Hin. }
      intros N. inversion N as [|? ? Hnx Nxs]; subst.
      destruct b; [|apply Hnd, Nxs].
      constructor; [|apply Hnd, Nxs]. intros Hx'. apply Hnx, Hin, Hx'.
Qed.

(** ** Names and patterns *)

Lemma some_tail_true m n :
  some_tail m n = true -> exists pre t, n = pre ++ t /\ m t = true.
Proof.
  induction n as [|c n IH]; cbn [some_tail]; intros H.
  - rewrite orb_false_r in H. exists [], []. auto.
  - apply orb_prop in H. destruct H as [H | H].
    + exists [], (c :: n). auto.
    + destruct (IH H) as (pre & t & -> & Ht). exists (c :: pre), t. auto.
Qed.

Lemma glob_literal lit nm :
  forallb (fun p => negb (Ascii.eqb p "*"%char)) lit = true ->
  glob_match lit nm = true -> nm = lit.
Proof.
  revert nm. induction lit as [|p lit IH]; intros nm Hl H.
  - destruct nm; [reflexivity | discriminate].
  - cbn [forallb] in Hl. apply andb_prop in Hl. destruct Hl as [Hp Hl].
    apply negb_true_iff in Hp. cbn [glob_match] in H. rewrite Hp in H.
    destruct nm as [|c nm]; [discriminate|].
    apply andb_prop in H. destruct H as [Hc H]. apply Ascii.eqb_eq in Hc. subst c.
    f_equal. apply IH; assumption.
Qed.

(** A name matches [*lit] only if it ends in [lit]. *)
Lemma glob_star_literal lit nm :
  forallb (fun p => negb (Ascii.eqb p "*"%char)) lit = true ->
  glob_match ("*"%char :: lit) nm = true -> exists pre, nm = pre ++ lit.
Proof.
  intros Hl H. cbn [glob_match] in H. rewrite Ascii.eqb_refl in H.
  destruct (some_tail_true _ _ H) as (pre & t & -> & Ht).
  exists pre. f_equal. apply glob_literal; assumption.
Qed.

(** No name ends both in [.tsx] and in [.ts]. *)
Lemma globs_disjoint nm :
  glob_match (s2l "*.tsx") nm && glob_match (s2l "*.ts") nm = false.
Proof.
  destruct (glob_match (s2l "*.tsx") nm) eqn:H1; [|reflexivity].
  destruct (glob_match (s2l "*.ts") nm) eqn:H2; [|reflexivity].
  exfalso.
  apply (glob_star_literal (s2l ".tsx")) in H1; [|reflexivity].
  apply (glob_star_literal (s2l ".ts")) in H2; [|reflexivity].
  destruct H1 as [p1 E1], H2 as [p2 E2]. rewrite E1 in E2.
  apply (f_equal (@rev ascii)) in E2. rewrite !rev_app_distr in E2.
  cbn in E2. discriminate E2.
Qed.

Lemma rfind_spec c s :
  (rfind c s < Z.of_nat (length s))%Z /\
  ((0 <= rfind c s)%Z ->
   exists t, skipn (Z.to_nat (rfind c s)) s = c :: t /\
             existsb (Ascii.eqb c) t = false).
Proof.
  induction s as [|x s IH]; cbn [rfind length].
  - split; [lia|]. intros H. lia.
  - destruct IH as [Hlt IH]. destruct (0 <=? rfind c s)%Z eqn:E.
    + apply Z.leb_le in E. split; [lia|]. intros _.
      destruct (IH E) as (t & Ht & Hn). exists t. split; [|exact Hn].
      replace (Z.to_nat (rfind c s + 1)) with (S (Z.to_nat (rfind c s))) by lia.
      exact Ht.
    + apply Z.leb_gt in E. destruct (Ascii.eqb x c) eqn:Hx.
      * split; [lia|]. intros _. apply Ascii.eqb_eq in Hx. subst x.
        exists s. split; [reflexivity|].
        clear - E. induction s as [|y s IH]; [reflexivity|].
        cbn [rfind] in E. cbn [existsb].
        destruct (0 <=? rfind c s)%Z eqn:E'; [apply Z.leb_le in E'; lia|].
        apply Z.leb_gt in E'. destruct (Ascii.eqb y c) eqn:Hy; [lia|].
        rewrite Ascii.eqb_sym, Hy. apply IH, E'.
      * split; [lia|]. intros H. lia.
Qed.

(** [suffix] holds one dot, so it is never [.d.ts]. *)
Lemma suffix_not_d_ts p : String.eqb (suffix p) ".d.ts" = false.
Proof.
  apply String.eqb_neq. unfold suffix.
  destruct ((0 <? rfind "."%char (s2l (name p)))%Z &&
            (rfind "."%char (s2l (name p)) <? Z.of_nat (length (s2l (name p))) - 1)%Z)
    eqn:E; [|discriminate].
  apply andb_prop in E. destruct E as [E _]. apply Z.ltb_lt in E.
  destruct (rfind_spec "."%char (s2l (name p))) as [_ H].
  destruct H as (t & Ht & Hn); [lia|]. rewrite Ht. intros Heq.
  apply (f_equal list_ascii_of_string) in Heq.
  rewrite list_ascii_of_string_of_list_ascii in Heq. cbn in Heq.
  injection Heq as ->. discriminate Hn.
Qed.

(** ** Printed paths *)

Local Open Scope string_scope.

Lemma plain_cons c s :
  plain (String c s) = negb (Ascii.eqb "/"%char c) && plain s.
Proof. unfold plain. cbn. rewrite negb_orb. reflexivity. Qed.

(** Two names followed by a separator, or by nothing, are told apart. *)
Lemma plain_split a b x y :
  plain a = true -> plain b = true ->
  (x = EmptyString \/ exists x', x = String "/" x') ->
  (y = EmptyString \/ exists y', y = String "/" y') ->
  a ++ x = b ++ y -> a = b /\ x = y.
Proof.
  revert b. induction a as [|c a IH]; intros b Ha Hb Hx Hy E.
  - destruct b as [|d b]; [auto|]. exfalso. cbn in E.
    rewrite plain_cons in Hb. apply andb_prop in Hb. destruct Hb as [Hd _].
    destruct Hx as [-> | [x' ->]]; [discriminate|].
    injection E as <- _. discriminate.
  - rewrite plain_cons in Ha. apply andb_prop in Ha. destruct Ha as [Hc Ha].
    destruct b as [|d b].
    + exfalso. cbn in E. destruct Hy as [-> | [y' ->]]; [discriminate|].
      injection E as -> _. discriminate.
    + rewrite plain_cons in Hb. apply andb_prop in Hb. destruct Hb as [_ Hb].
      cbn in E. injection E as -> E. destruct (IH b Ha Hb Hx Hy E) as [-> ->]. auto.
Qed.

Lemma concat_cons x l :
  String.concat "/" (x :: l) =
  x ++ match l with [] => EmptyString | _ :: _ => String "/" (String.concat "/" l) end.
Proof.
  cbn [String.concat]. destruct l.
  - clear. induction x as [|c x IH]; [reflexivity|]. cbn. rewrite <- IH. reflexivity.
  - reflexivity.
Qed.

Lemma concat_plain_inj l1 l2 :
  forallb plain l1 = true -> forallb plain l2 = true ->
  l1 <> [] -> l2 <> [] ->
  String.concat "/" l1 = String.concat "/" l2 -> l1 = l2.
Proof.
  revert l2. induction l1 as [|x l1 IH]; intros l2 H1 H2 N1 N2 E; [congruence|].
  destruct l2 as [|y l2]; [congruence|].
  cbn [forallb] in H1, H2. apply andb_prop in H1, H2.
  destruct H1 as [Hx H1], H2 as [Hy H2].
  rewrite !concat_cons in E.
  apply plain_split in E; auto.
  - destruct E as [-> E]. f_equal.
    destruct l1 as [|x1 l1], l2 as [|y1 l2]; try discriminate; [reflexivity|].
    injection E as E. apply IH; auto; discriminate.
  - destruct l1; [left; reflexivity | right; eexists; reflexivity].
  - destruct l2; [left; reflexivity | right; eexists; reflexivity].
Qed.

Lemma path_str_plain x l :
  plain x = true -> path_str (x :: l) = String.concat "/" (x :: l).
Proof.
  intros H. unfold path_str. destruct x as [|c x]; [reflexivity|].
  destruct c as [[] [] [] [] [] [] [] []]; try reflexivity.
  destruct x; [discriminate H | reflexivity].
Qed.

Local Close Scope string_scope.

Lemma path_eqb_eq p q : path_eqb p q = true <-> p = q.
Proof.
  unfold path_eqb. destruct (list_eq_dec string_dec p q); split; auto; discriminate.
Qed.

Lemma distinct_NoDup l : distinct l = true -> NoDup l.
Proof.
  induction l as [|x l IH]; intros H; constructor; cbn [distinct] in H;
    apply andb_prop in H; destruct H as [Hx H].
  - intros Hin. apply negb_true_iff in Hx.
    assert (existsb (path_eqb x) l = true); [|congruence].
    apply existsb_exists. exists x. split; [exact Hin | apply path_eqb_eq; reflexivity].
  - apply IH, H.
Qed.

(** The lines printed for two different entries below the base directory
    differ. *)
Lemma updated_line_inj base p q :
  is_prefix base p = true -> is_prefix base q = true ->
  path_eqb base p = false -> path_eqb base q = false ->
  forallb plain (skipn (length base) p) = true ->
  forallb plain (skipn (length base) q) = true ->
  updated_line base p = updated_line base q -> p = q.
Proof.
  intros Hp Hq Np Nq Pp Pq E.
  pose proof (is_prefix_skipn base p Hp) as Ep.
  pose proof (is_prefix_skipn base q Hq) as Eq.
  assert (Rp : skipn (length base) p <> []).
  { intros X. rewrite X, app_nil_r in Ep.
    assert (path_eqb base p = true) by (apply path_eqb_eq; auto). congruence. }
  assert (Rq : skipn (length base) q <> []).
  { intros X. rewrite X, app_nil_r in Eq.
    assert (path_eqb base q = true) by (apply path_eqb_eq; auto). congruence. }
  unfold updated_line in E. cbn in E. injection E as E.
  rewrite Ep, Eq. f_equal.
  destruct (skipn (length base) p) as [|x l1] eqn:Sp; [congruence|].
  destruct (skipn (length base) q) as [|y l2] eqn:Sq; [congruence|].
  cbn [forallb] in Pp, Pq.
  apply andb_prop in Pp as Pp'. apply andb_prop in Pq as Pq'.
  rewrite (path_str_plain x l1), (path_str_plain y l2) in E by tauto.
  apply concat_plain_inj; cbn [forallb]; auto.
Qed.

(** ** The two loops together *)

Lemma found_In base pat d p :
  In p (found base pat d) ->
  In p (map fst d) /\ is_prefix base p = true /\ path_eqb base p = false /\
  glob_match (s2l pat) (s2l (name p)) = true.
Proof.
  unfold found. rewrite filter_In. intros [Hin H].
  apply andb_prop in H. destruct H as [H Hg].
  apply andb_prop in H. destruct H as [Hp Hn]. apply negb_true_iff in Hn. auto.
Qed.

Lemma found_same_paths base pat d d' :
  map fst d' = map fst d -> found base pat d' = found base pat d.
Proof. unfold found. intros ->. reflexivity. Qed.

Lemma firstn_incl (A : Type) k (l : list A) : incl (firstn k l) l.
Proof.
  intros x Hx. rewrite <- (firstn_skipn k l). apply in_or_app. left. exact Hx.
Qed.

Lemma firstn_NoDup (A : Type) k (l : list A) : NoDup l -> NoDup (firstn k l).
Proof.
  intros H. rewrite <- (firstn_skipn k l) in H. apply NoDup_app_remove_r in H. exact H.
Qed.

Lemma tsx_body_step base : tsx_body base = step skip_tsx base.
Proof. reflexivity. Qed.

Lemma ts_body_step base : ts_body base = step skip_ts base.
Proof. reflexivity. Qed.

(** The run stopped anywhere: it has not raised, the paths read so far are
    distinct and counted by [files_processed], and the paths counted by
    [files_updated] are distinct entries of the directory with one
    [Updated:] line each. *)
Lemma run_upto_spec base k1 k2 w :
  NoDup (map fst (disk w)) ->
  exists c w' lines evs ups,
    run_upto base k1 k2 w = (Done c, w') /\
    map fst (disk w') = map fst (disk w) /\
    stdout w' = stdout w ++ lines /\
    opened w' = opened w ++ evs /\
    NoDup (reads evs) /\
    files_processed c = length (reads evs) /\
    filter is_updated_line lines = map (updated_line base) ups /\
    files_updated c = length ups /\
    length ups <= length (reads evs) /\
    NoDup ups /\
    (forall p, In p ups ->
       In p (map fst (disk w)) /\ is_prefix base p = true /\
       path_eqb base p = false).
Proof.
  intros N. unfold run_upto, bind, rglob.
  set (tsx := found base "*.tsx" (disk w)).
  assert (Ftsx : Forall (fun p => is_prefix base p = true) (firstn k1 tsx)).
  { apply Forall_forall. intros p Hp. apply firstn_incl in Hp.
    apply found_In in Hp. tauto. }
  rewrite tsx_body_step.
  destruct (loop_spec skip_tsx base (firstn k1 tsx) Ftsx (mkCounters 0 0) w)
    as (c1 & w1 & lines1 & evs1 & ups1 & E1 & R1).
  destruct R1 as (Hd1 & Ho1 & Hop1 & Hr1 & Hfp1 & Hl1 & Hfu1 & Hle1 & Hin1 & Hnd1).
  rewrite E1. rewrite (found_same_paths base "*.ts" (disk w) (disk w1) Hd1).
  set (ts := found base "*.ts" (disk w)).
  assert (Fts : Forall (fun p => is_prefix base p = true) (firstn k2 ts)).
  { apply Forall_forall. intros p Hp. apply firstn_incl in Hp.
    apply found_In in Hp. tauto. }
  rewrite ts_body_step.
  destruct (loop_spec skip_ts base (firstn k2 ts) Fts c1 w1)
    as (c2 & w2 & lines2 & evs2 & ups2 & E2 & R2).
  destruct R2 as (Hd2 & Ho2 & Hop2 & Hr2 & Hfp2 & Hl2 & Hfu2 & Hle2 & Hin2 & Hnd2).
  assert (Ntsx : NoDup (firstn k1 tsx)).
  { apply firstn_NoDup. unfold tsx, found. apply NoDup_filter, N. }
  assert (Nts : NoDup (firstn k2 ts)).
  { apply firstn_NoDup. unfold ts, found. apply NoDup_filter, N. }
  assert (Disj : forall p, In p (firstn k1 tsx) -> ~ In p (firstn k2 ts)).
  { intros p H1 H2. apply firstn_incl in H1, H2. apply found_In in H1, H2.
    pose proof (globs_disjoint (s2l (name p))) as G.
    destruct H1 as (_ & _ & _ & G1), H2 as (_ & _ & _ & G2).
    change (s2l "*.tsx") with (s2l "*.tsx"%string) in G.
    rewrite G1, G2 in G. discriminate G. }
  exists c2, w2, (lines1 ++ lines2), (evs1 ++ evs2), (ups1 ++ ups2).
  split; [exact E2|].
  split; [congruence|].
  split; [rewrite Ho2, Ho1, app_assoc; reflexivity|].
  split; [rewrite Hop2, Hop1, app_assoc; reflexivity|].
  split.
  { rewrite reads_app, Hr1, Hr2. apply NoDup_app.
    - apply NoDup_filter, Ntsx.
    - apply NoDup_filter, Nts.
    - intros p H1 H2. apply filter_In in H1, H2. apply (Disj p); tauto. }
  split; [rewrite reads_app, length_app; cbn [files_processed] in Hfp1; lia|].
  split; [rewrite filter_app, map_app, Hl1, Hl2; reflexivity|].
  split; [rewrite length_app; cbn [files_updated] in Hfu1; lia|].
  split; [rewrite reads_app, !length_app; lia|].
  split.
  { apply NoDup_app; auto. intros p H1 H2. apply (Disj p); auto. }
  intros p Hp. apply in_app_or in Hp.
  destruct Hp as [Hp | Hp]; [apply Hin1 in Hp | apply Hin2 in Hp];
    apply firstn_incl in Hp; apply found_In in Hp; tauto.
Qed.

(** The two loops of [main] are the run stopped nowhere. *)
Lemma process_all_run base w :
  process_all base w =
  run_upto base (length (found base "*.tsx" (disk w)))
    (length (found base "*.ts" (disk w))) w.
Proof.
  unfold process_all, run_upto, bind, rglob. rewrite firstn_all.
  assert (F : Forall (fun p => is_prefix base p = true) (found base "*.tsx" (disk w))).
  { apply Forall_forall. intros p Hp. apply found_In in Hp. tauto. }
  rewrite tsx_body_step.
  destruct (loop_spec skip_tsx base _ F (mkCounters 0 0) w)
    as (c1 & w1 & lines1 & evs1 & ups1 & E1 & Hd1 & _).
  rewrite E1, (found_same_paths base "*.ts" (disk w) (disk w1) Hd1), firstn_all.
  reflexivity.
Qed.

(** ** What raising means for one file *)

Lemma str_eqb_eq a b : str_eqb a b = true <-> a = b.
Proof.
  unfold str_eqb. destruct (list_eq_dec ascii_dec a b); split; auto; discriminate.
Qed.

Lemma str_eqb_neq a b : str_eqb a b = false <-> a <> b.
Proof.
  unfold str_eqb. destruct (list_eq_dec ascii_dec a b) as [E|N]; split; intros H.
  - discriminate H.
  - contradiction.
  - exact N.
  - reflexivity.
Qed.

Lemma path_eqb_refl p : path_eqb p p = true.
Proof. apply path_eqb_eq. reflexivity. Qed.

(** A file that has been stored is found again, with the text stored. *)
Lemma lookup_store p t d f :
  lookup p d = Some f ->
  lookup p (store p t d) = Some (mkFile t (f_read_error f) (f_write_error f)).
Proof.
  induction d as [|[q g] d IH]; [discriminate|]. cbn [lookup store].
  destruct (path_eqb p q) eqn:E; cbn [lookup]; rewrite E.
  - intros [= ->]. reflexivity.
  - exact IH.
Qed.

(** Storing under one path leaves the other paths as they were. *)
Lemma lookup_store_other p q t d :
  path_eqb q p = false -> lookup q (store p t d) = lookup q d.
Proof.
  intros N. induction d as [|[r g] d IH]; [reflexivity|]. cbn [lookup store].
  destruct (path_eqb p r) eqn:E; cbn [lookup].
  - apply path_eqb_eq in E. subst r. rewrite N. reflexivity.
  - rewrite IH. reflexivity.
Qed.


Lemma failure_raised p e w :
  failure p w = Some e ->
  fst (read_text p w) = Raised e \/
  (exists t, fst (read_text p w) = Done t /\ apply_mappings t <> t /\
             fst (write_text p (apply_mappings t) (snd (read_text p w))) = Raised e).
Proof.
  unfold failure, read_text, write_text, log. cbn [disk stdout opened].
  destruct (lookup p (disk w)) as [f|] eqn:L.
  - destruct (f_read_error f) as [r|] eqn:R; cbn [fst snd disk].
    + intros [= ->]. left. reflexivity.
    + destruct (str_eqb (apply_mappings (f_text f)) (f_text f)) eqn:C;
        cbn [negb]; [discriminate|].
      intros W. right. exists (f_text f). rewrite L.
      split; [reflexivity|]. split; [apply str_eqb_neq, C|].
      destruct (f_write_error f) as [[x|x n]|]; cbn [option_map message] in W;
        [| |discriminate W]; injection W as ->; reflexivity.
  - cbn [fst]. intros [= <-]. left. reflexivity.
Qed.

(** The step of both loops on a path whose handling raises. *)
Lemma visit_failure base c p e w :
  failure p w = Some e ->
  visit base c p w =
  (Done (mkCounters (files_processed c + 1) (files_updated c)),
   mkWorld (disk_after p w) (stdout w ++ [error_line p e])
     (opened w ++ OpenRead p :: (if changed p w then [OpenWrite p] else []))).
Proof.
  intros F. unfold visit, bind. rewrite process_file_eq.
  unfold no_failure. rewrite F, andb_false_r. reflexivity.
Qed.

(** What is on the disk below the base directory decides [exists()]. *)
Lemma found_below base pat d p : In p (found base pat d) ->
  existsb (fun e => is_prefix base (fst e)) d = true.
Proof.
  intros H. apply found_In in H. destruct H as (Hin & Hp & _).
  apply in_map_iff in Hin. destruct Hin as (e & <- & He).
  apply existsb_exists. exists e. auto.
Qed.

(** ** The claims about the text transformation *)

(** C2, as stated, fails: in the comment [// don't use #1e1e1e but "dark"]
    the literal lies in no quoted span, an apostrophe precedes it and a
    double quote follows it on the line, and the first rule replaces it. *)
Lemma replaced_outside_matching_quotes :
  between_matching_quotes comment_before comment_after = false /\
  replace_color bg_primary bg_primary_token
    (comment_before ++ bg_primary ++ comment_after) =
  comment_before ++ bg_primary_token ++ comment_after.
Proof. split; vm_compute; reflexivity. Qed.

(** C2, amended: for every rule of the table, an occurrence of its literal
    (in any letter case) with no quote character before it on its line, or
    with none after it on its line, is left in place by the rule's pass, the
    text before and after it being rewritten as if it stood alone; and
    every replacement the pass makes is of an occurrence that has a quote
    character (single or double, not necessarily the same) before it and
    one after it on the same line. *)
Theorem replaced_only_between_quote_characters hex tok :
  In (hex, tok) COLOR_MAPPINGS ->
  (forall pre occ post,
     eq_ci occ hex = true ->
     no_quote (last_line pre) = true \/ no_quote (first_line post) = true ->
     replace_color hex tok (pre ++ occ ++ post) =
     replace_color hex tok pre ++ occ ++ replace_color hex tok post) /\
  (forall s sk cs rest,
     Re.search true (color_pattern hex) s = Some (sk, cs, rest) ->
     exists q1 g occ g' q2,
       s = sk ++ q1 :: g ++ occ ++ g' ++ q2 :: rest /\
       is_quote q1 = true /\ is_quote q2 = true /\ eq_ci occ hex = true /\
       no_nl g = true /\ no_nl g' = true /\
       Re.expand (color_template tok) cs = q1 :: g ++ tok ++ g' ++ [q2]).
Proof.
  intros H. destruct (table_facts _ _ H) as (Hwf & _).
  split.
  - intros pre occ post. apply occurrence_survives, Hwf.
  - intros s sk cs rest. apply match_is_between_quotes.
Qed.

Lemma replaced_only_between_quote_characters_witness :
  replace_color bg_primary bg_primary_token
    (s2l "x = 1  // " ++ s2l "#1E1e1e" ++ s2l " is 'dark'") =
  replace_color bg_primary bg_primary_token (s2l "x = 1  // ") ++
  s2l "#1E1e1e" ++ replace_color bg_primary bg_primary_token (s2l " is 'dark'").
Proof.
  apply (proj1 (replaced_only_between_quote_characters bg_primary bg_primary_token
                  (or_introl eq_refl))).
  - reflexivity.
  - left. reflexivity.
Defined.

(** C3, as stated, fails: the literal with one more hex digit, between
    quotes, has its first seven characters replaced by the rule for the
    6-digit value, the extra digit staying behind the token. *)
Lemma longer_literal_partly_replaced :
  replace_color bg_primary bg_primary_token (quoted "#1e1e1e0") =
  dq :: bg_primary_token ++ s2l "0" ++ [dq].
Proof. vm_compute. reflexivity. Qed.

(** C3, amended: for every rule of the table, an occurrence of its literal
    in any letter case that is the first [#] after a quote on its line, with
    a quote following on the line, is replaced by the token whatever stands
    next to it (further hex digits included, which stay behind the token);
    and a text in which the literal does not occur in any letter case, such
    as one holding it with a digit missing, is left unchanged. *)
Theorem literal_matched_up_to_case hex tok :
  In (hex, tok) COLOR_MAPPINGS ->
  (forall pre q1 a occ g q2 post,
     no_hash (last_line pre) = true -> no_hash a = true -> no_nl a = true ->
     is_quote q1 = true -> eq_ci occ hex = true ->
     no_quote g = true -> no_nl g = true -> is_quote q2 = true ->
     replace_color hex tok (pre ++ q1 :: a ++ occ ++ g ++ q2 :: post) =
     replace_color hex tok pre ++ q1 :: a ++ tok ++ g ++ q2 ::
     replace_color hex tok post) /\
  (forall s, occurs_ci hex s = false -> replace_color hex tok s = s).
Proof.
  intros H. destruct (table_facts _ _ H) as (Hwf & _).
  split.
  - intros pre q1 a occ g q2 post. apply first_occurrence_replaced, Hwf.
  - apply replace_color_absent.
Qed.

Lemma literal_matched_up_to_case_witness :
  replace_color bg_primary bg_primary_token
    (s2l "a = 'x'" ++ [nl] ++ s2l "b = " ++ dq :: s2l "bg-[" ++ s2l "#1E1E1e" ++
     s2l "0]" ++ dq :: s2l "; c = '#1e1e1'") =
  replace_color bg_primary bg_primary_token (s2l "a = 'x'" ++ [nl] ++ s2l "b = ") ++
  dq :: s2l "bg-[" ++ bg_primary_token ++ s2l "0]" ++ dq ::
  replace_color bg_primary bg_primary_token (s2l "; c = '#1e1e1'") /\
  replace_color bg_primary bg_primary_token (s2l "; c = '#1e1e1'") =
  s2l "; c = '#1e1e1'".
Proof.
  pose proof (literal_matched_up_to_case bg_primary bg_primary_token
                (or_introl eq_refl)) as [H1 H2].
  split.
  - apply (H1 (s2l "a = 'x'" ++ [nl] ++ s2l "b = ") dq (s2l "bg-[") (s2l "#1E1E1e")
             (s2l "0]") dq (s2l "; c = '#1e1e1'")); reflexivity.
  - apply H2. reflexivity.
Defined.

(** C4, at the code: a class attribute naming [#1e1e1e] twice between one
    pair of quotes keeps the second occurrence after a first application of
    the table, and loses it in a second application, so the transformation
    is not idempotent there; and two runs in succession over a directory
    holding one component with that attribute each report one file
    updated. *)
Theorem second_application_changes_more :
  apply_mappings twice =
  s2l "className=" ++ dq :: s2l "bg-[var(--color-bg-primary)] hover:bg-[#1E1E1E]" ++ [dq] /\
  apply_mappings (apply_mappings twice) =
  s2l "className=" ++
  dq :: s2l "bg-[var(--color-bg-primary)] hover:bg-[var(--color-bg-primary)]" ++ [dq] /\
  apply_mappings (apply_mappings twice) <> apply_mappings twice /\
  stdout (snd (main repo (snd (main repo one_component)))) =
  [ "Updated: Sheet.tsx"; String nl (check_mark ++ " Processing complete!");
    "  Files processed: 1"; "  Files updated: 1";
    "Updated: Sheet.tsx"; String nl (check_mark ++ " Processing complete!");
    "  Files processed: 1"; "  Files updated: 1" ]%string.
Proof.
  split; [vm_compute; reflexivity|]. split; [vm_compute; reflexivity|].
  split; [|vm_compute; reflexivity].
  intros E. assert (F : str_eqb (apply_mappings (apply_mappings twice))
                          (apply_mappings twice) = false) by (vm_compute; reflexivity).
  rewrite E in F. unfold str_eqb in F.
  destruct (list_eq_dec ascii_dec (apply_mappings twice) (apply_mappings twice));
    [discriminate F | contradiction].
Qed.



(** ** The claims about the run *)

Local Open Scope string_scope.

Lemma updated_lines_distinct base d ups :
  listing_ok base d = true -> NoDup ups ->
  (forall p, In p ups ->
     In p (map fst d) /\ is_prefix base p = true /\ path_eqb base p = false) ->
  NoDup (map (updated_line base) ups).
Proof.
  intros L N H. apply NoDup_map_NoDup_ForallPairs; [|exact N].
  unfold listing_ok in L. apply andb_prop in L. destruct L as [_ L].
  rewrite forallb_forall in L.
  intros p q Hp Hq E.
  destruct (H p Hp) as (Ip & Pp & Np), (H q Hq) as (Iq & Pq & Nq).
  apply (updated_line_inj base); auto.
Qed.

(** C1, at the code: [suffix] is the name from its last dot on, never
    [.d.ts], so the test of the second loop passes over exactly what the
    test of the first loop passes over; and a run on a directory holding
    only [types.d.ts], with a quoted [#1e1e1e] in it, reads the file, writes
    it back with the token in place, and counts it as processed and as
    updated. *)
Theorem declarations_file_is_rewritten :
  (forall p, String.eqb (suffix p) ".d.ts" = false) /\
  (forall base c p, ts_body base c p = tsx_body base c p) /\
  main repo declarations_only =
  (Done tt,
   mkWorld
     [(at_root "types.d.ts", mkFile (dq :: bg_primary_token ++ [dq])%list None None)]
     ["Updated: types.d.ts"; String nl (check_mark ++ " Processing complete!")%string;
      "  Files processed: 1"; "  Files updated: 1"]
     [OpenRead (at_root "types.d.ts"); OpenWrite (at_root "types.d.ts")]).
Proof.
  split; [apply suffix_not_d_ts|]. split.
  - intros base c p. unfold ts_body, tsx_body.
    rewrite suffix_not_d_ts, orb_false_r. reflexivity.
  - vm_compute. reflexivity.
Qed.

(** C5, as stated, fails: a component that can be read but not written, and
    whose text the table changes, is not counted as updated. *)
Lemma changed_but_not_counted :
  fst (read_text (at_root "Sheet.tsx") read_only_component) =
  Done (f_text read_only_file) /\
  apply_mappings (f_text read_only_file) <> f_text read_only_file /\
  fst (process_file (at_root "Sheet.tsx") read_only_component) = Done false.
Proof.
  split; [reflexivity|]. split; [|vm_compute; reflexivity].
  apply str_eqb_neq. vm_compute. reflexivity.
Qed.

(** C5, amended: for every file that is read successfully, [process_file]
    opens it for writing once, after reading it, exactly when the text after
    applying all rules differs from the text read; when the text is the
    same it writes nothing and the disk is as it was; it returns [True] if
    and only if the text differs and that write succeeds, in which case the
    file holds the new text. *)
Theorem updated_iff_changed_and_written p w text :
  fst (read_text p w) = Done text ->
  exists b w',
    process_file p w = (Done b, w') /\
    (b = true <->
     apply_mappings text <> text /\
     fst (write_text p (apply_mappings text) (snd (read_text p w))) = Done tt) /\
    opened w' =
    (opened w ++ OpenRead p ::
       (if str_eqb (apply_mappings text) text then [] else [OpenWrite p]))%list /\
    (b = true ->
     exists f, lookup p (disk w') = Some f /\ f_text f = apply_mappings text) /\
    (apply_mappings text = text -> disk w' = disk w).
Proof.
  intros H. rewrite process_file_eq.
  unfold changed, no_failure, failure, disk_after, left_in_file.
  unfold read_text, write_text, log in *. cbn [disk stdout opened fst snd] in *.
  destruct (lookup p (disk w)) as [f|] eqn:L; [|discriminate H].
  destruct (f_read_error f) as [r|] eqn:R; [discriminate H|].
  cbn [fst snd disk] in *. injection H as <-. rewrite L.
  remember (apply_mappings (f_text f)) as t eqn:Et. clear Et.
  destruct (str_eqb t (f_text f)) eqn:C; cbn [negb andb].
  - apply str_eqb_eq in C. eexists; eexists. split; [reflexivity|].
    cbn [opened disk]. repeat split; try discriminate.
    intros [N _]. contradiction.
  - apply str_eqb_neq in C.
    destruct (f_write_error f) as [[x|x n]|] eqn:W; cbn [fst option_map message];
      (eexists; eexists; split; [reflexivity|]); cbn [opened disk].
    + repeat split; try discriminate; try contradiction.
      intros [_ X]. discriminate X.
    + repeat split; try discriminate; try contradiction.
      intros [_ X]. discriminate X.
    + repeat split; try discriminate; try contradiction; auto.
      intros _. rewrite (lookup_store p t (disk w) f L). eexists.
      split; reflexivity.
Qed.

Lemma updated_iff_changed_and_written_witness :
  exists b w',
    process_file (at_root "Sheet.tsx") one_component = (Done b, w') /\
    (b = true <->
     apply_mappings twice <> twice /\
     fst (write_text (at_root "Sheet.tsx") (apply_mappings twice)
            (snd (read_text (at_root "Sheet.tsx") one_component))) = Done tt) /\
    opened w' =
    (opened one_component ++ OpenRead (at_root "Sheet.tsx") ::
       (if str_eqb (apply_mappings twice) twice then []
        else [OpenWrite (at_root "Sheet.tsx")]))%list /\
    (b = true ->
     exists f, lookup (at_root "Sheet.tsx") (disk w') = Some f /\
               f_text f = apply_mappings twice) /\
    (apply_mappings twice = twice -> disk w' = disk one_component).
Proof.
  apply (updated_iff_changed_and_written (at_root "Sheet.tsx") one_component twice).
  reflexivity.
Defined.



(** C7: when the directory [<program_dir>/assemble.ai/src/components/cost-plan]
    does not exist, [main] prints [Error: Directory not found: <path>] and
    returns: nothing else is printed, no file is opened and the disk is as
    it was. *)
Theorem missing_directory_only_reported program_dir w :
  fst (path_exists (the_base_dir program_dir) w) = Done false ->
  main program_dir w =
  (Done tt,
   mkWorld (disk w)
     (stdout w ++
      [("Error: Directory not found: " ++
        path_str (program_dir ++
                  ["assemble.ai"; "src"; "components"; "cost-plan"])%list)%string])%list
     (opened w)).
Proof.
  unfold main, bind, path_exists. cbn [fst]. intros [= ->]. reflexivity.
Qed.

Lemma missing_directory_only_reported_witness :
  main ["/"; "tmp"] small_tree =
  (Done tt,
   mkWorld (disk small_tree)
     (stdout small_tree ++
      [("Error: Directory not found: " ++
        path_str (["/"; "tmp"] ++
                  ["assemble.ai"; "src"; "components"; "cost-plan"])%list)%string])%list
     (opened small_tree)).
Proof.
  apply (missing_directory_only_reported ["/"; "tmp"] small_tree). reflexivity.
Defined.

(** C8: on a directory listing (no path twice, no separator inside a name),
    wherever the run is stopped [files_updated] is at most
    [files_processed]; and when the two loops have ended, [files_updated] is
    the number of distinct [Updated: <relative path>] lines they printed. *)
Theorem counters_agree_with_updated_lines base w :
  listing_ok base (disk w) = true ->
  (forall k1 k2, exists c w',
     run_upto base k1 k2 w = (Done c, w') /\
     files_updated c <= files_processed c) /\
  exists c w' lines,
    process_all base w = (Done c, w') /\
    stdout w' = (stdout w ++ lines)%list /\
    files_updated c <= files_processed c /\
    files_updated c = length (nodup string_dec (filter is_updated_line lines)).
Proof.
  intros L.
  assert (N : NoDup (map fst (disk w))).
  { unfold listing_ok in L. apply andb_prop in L. apply distinct_NoDup, L. }
  split.
  - intros k1 k2.
    destruct (run_upto_spec base k1 k2 w N)
      as (c & w' & lines & evs & ups & E & _ & _ & _ & _ & Hfp & _ & Hfu & Hle & _).
    exists c, w'. split; [exact E | lia].
  - rewrite process_all_run.
    destruct (run_upto_spec base (length (found base "*.tsx" (disk w)))
                (length (found base "*.ts" (disk w))) w N)
      as (c & w' & lines & evs & ups & E & _ & Ho & _ & _ & Hfp & Hl & Hfu & Hle & Nu & Hin).
    exists c, w', lines. split; [exact E|]. split; [exact Ho|]. split; [lia|].
    rewrite Hl, nodup_fixed_point, length_map; [exact Hfu|].
    apply (updated_lines_distinct base (disk w)); assumption.
Qed.

Lemma counters_agree_with_updated_lines_witness :
  (forall k1 k2, exists c w',
     run_upto cost_plan k1 k2 small_tree = (Done c, w') /\
     files_updated c <= files_processed c) /\
  exists c w' lines,
    process_all cost_plan small_tree = (Done c, w') /\
    stdout w' = (stdout small_tree ++ lines)%list /\
    files_updated c <= files_processed c /\
    files_updated c = length (nodup string_dec (filter is_updated_line lines)).
Proof.
  apply (counters_agree_with_updated_lines cost_plan small_tree).
  vm_compute. reflexivity.
Defined.

(** C10: no name matches both [*.tsx] and [*.ts], so no path is yielded by
    both enumerations; and on a disk that lists no path twice the run reads
    no file twice, [files_processed] being the number of files read. *)
Theorem passes_are_disjoint base w :
  distinct (map fst (disk w)) = true ->
  (forall w1 w2 l1 l2 p,
     fst (rglob base "*.tsx" w1) = Done l1 ->
     fst (rglob base "*.ts" w2) = Done l2 ->
     In p l1 -> In p l2 -> False) /\
  exists c w' evs,
    process_all base w = (Done c, w') /\
    opened w' = (opened w ++ evs)%list /\
    NoDup (reads evs) /\
    files_processed c = length (reads evs).
Proof.
  intros D. split.
  - unfold rglob. cbn [fst]. intros w1 w2 l1 l2 p [= <-] [= <-] H1 H2.
    apply found_In in H1, H2.
    destruct H1 as (_ & _ & _ & G1), H2 as (_ & _ & _ & G2).
    pose proof (globs_disjoint (s2l (name p))) as G.
    rewrite G1, G2 in G. discriminate G.
  - rewrite process_all_run.
    destruct (run_upto_spec base (length (found base "*.tsx" (disk w)))
                (length (found base "*.ts" (disk w))) w (distinct_NoDup _ D))
      as (c & w' & lines & evs & ups & E & _ & _ & Hop & Nr & Hfp & _).
    exists c, w', evs. auto.
Qed.

Lemma passes_are_disjoint_witness :
  (forall w1 w2 l1 l2 p,
     fst (rglob cost_plan "*.tsx" w1) = Done l1 ->
     fst (rglob cost_plan "*.ts" w2) = Done l2 ->
     In p l1 -> In p l2 -> False) /\
  exists c w' evs,
    process_all cost_plan small_tree = (Done c, w') /\
    opened w' = (opened small_tree ++ evs)%list /\
    NoDup (reads evs) /\
    files_processed c = length (reads evs).
Proof.
  apply (passes_are_disjoint cost_plan small_tree). vm_compute. reflexivity.
Defined.

Local Close Scope string_scope.

(** ** Further laws of the table *)

Lemma substituted_refl h tok s : substituted h tok s s.
Proof. induction s; constructor; assumption. Qed.

Lemma substituted_app h tok x s s' :
  substituted h tok s s' -> substituted h tok (x ++ s) (x ++ s').
Proof. intros H. induction x; [exact H | constructor; assumption]. Qed.

Lemma replace_color_substituted h tok :
  wf_hex h = true -> forall s, substituted h tok s (replace_color h tok s).
Proof.
  intros Hwf. refine (str_length_ind _ _). intros s IH. destruct s as [|c s].
  - rewrite replace_color_nil. constructor.
  - rewrite replace_color_cons.
    assert (K : substituted h tok (c :: s) (c :: replace_color h tok s))
      by (constructor; apply IH; cbn [length]; lia).
    destruct (is_quote c); [|exact K].
    destruct (find_lit h s) as [[[[sk occ] g3] rest]|] eqn:E; [|exact K].
    apply find_lit_sound in E. destruct E as (-> & Ho & _).
    constructor. apply substituted_app. constructor; [exact Ho|].
    apply substituted_app, IH. cbn [length]. rewrite !length_app. lia.
Qed.

Lemma count_app P a b : count P (a ++ b) = count P a + count P b.
Proof. unfold count. rewrite filter_app, length_app. reflexivity. Qed.

Lemma filter_none (P : ascii -> bool) s :
  forallb (fun c => negb (P c)) s = true -> filter P s = [].
Proof.
  induction s as [|c s IH]; [reflexivity|]. cbn [forallb filter]. intros H.
  apply andb_prop in H. destruct H as [Hc H]. apply negb_true_iff in Hc.
  rewrite Hc. apply IH, H.
Qed.

Section Counting.

Variables h tok : str.
Hypothesis Hwf : wf_hex h = true.
Hypothesis Htok : wf_token tok = true.

Lemma token_parts : no_hash tok = true /\ no_quote tok = true /\ no_nl tok = true.
Proof.
  unfold wf_token in Htok. apply andb_prop in Htok. destruct Htok as [H H3].
  apply andb_prop in H. destruct H as [H1 H2]. auto.
Qed.

Lemma occurrence_one_hash occ : eq_ci occ h = true -> count is_hash occ = 1.
Proof.
  intros H. pose proof (eq_ci_length _ _ H) as Hl. unfold eq_ci in H.
  apply andb_prop in H. destruct H as [_ H].
  destruct (wf_hex_parts h Hwf) as (x & h' & -> & Hx & Hh & _).
  destruct occ as [|c occ]; [discriminate|].
  cbn [prefix_ci] in H. apply andb_prop in H. destruct H as [Hc H].
  apply chr_eq_hash in Hc. unfold count. cbn [filter]. rewrite Hc, Hx. cbn [length].
  rewrite filter_none; [reflexivity|].
  cbn [length] in Hl.
  unfold no_hash in Hh.
  rewrite (prefix_ci_no_prop is_hash occ h' chr_eq_hash H); [exact Hh | lia].
Qed.

Lemma occurrence_no_mark occ : eq_ci occ h = true -> filter is_mark occ = [].
Proof.
  intros H. apply filter_none.
  pose proof (eq_ci_no_quote h Hwf occ H) as Q.
  pose proof (eq_ci_no_nl h Hwf occ H) as N.
  unfold no_quote, no_nl in *. rewrite forallb_forall in *.
  intros c Hc. specialize (Q c Hc). specialize (N c Hc).
  unfold is_mark. apply negb_true_iff in Q, N. rewrite Q, N. reflexivity.
Qed.

Lemma token_no_mark : filter is_mark tok = [].
Proof.
  apply filter_none. destruct token_parts as (_ & Q & N).
  unfold no_quote, no_nl in *. rewrite forallb_forall in *.
  intros c Hc. specialize (Q c Hc). specialize (N c Hc).
  unfold is_mark. apply negb_true_iff in Q, N. rewrite Q, N. reflexivity.
Qed.

Lemma substituted_hashes s s' :
  substituted h tok s s' ->
  count is_hash s' <= count is_hash s /\
  (s' = s \/ count is_hash s' < count is_hash s).
Proof.
  induction 1 as [|c s s' _ [IH1 IH2]|occ s s' Ho _ [IH1 IH2]].
  - split; [lia | left; reflexivity].
  - change (c :: s) with ([c] ++ s). change (c :: s') with ([c] ++ s').
    rewrite !count_app. split; [lia|].
    destruct IH2 as [-> | IH2]; [left; reflexivity | right; lia].
  - rewrite !count_app, (occurrence_one_hash occ Ho).
    destruct token_parts as (T & _). unfold count. rewrite (filter_none is_hash tok T).
    fold (count is_hash s). fold (count is_hash s'). cbn [length]. split; [lia | right; lia].
Qed.

Lemma substituted_marks s s' :
  substituted h tok s s' -> filter is_mark s' = filter is_mark s.
Proof.
  induction 1 as [|c s s' _ IH|occ s s' Ho _ IH]; [reflexivity| |].
  - cbn [filter]. rewrite IH. reflexivity.
  - rewrite !filter_app, (occurrence_no_mark occ Ho), token_no_mark, IH. reflexivity.
Qed.

End Counting.

Lemma table_rule r :
  In r COLOR_MAPPINGS -> wf_hex (fst r) = true /\ wf_token (snd r) = true.
Proof.
  destruct r as [hex tok]. intros H. destruct (table_facts _ _ H) as (A & B & _).
  auto.
Qed.

Lemma apply_rules_cons r rules s :
  apply_rules (r :: rules) s = apply_rules rules (replace_color (fst r) (snd r) s).
Proof. reflexivity. Qed.

Lemma apply_rules_hashes rules :
  (forall r, In r rules -> wf_hex (fst r) = true /\ wf_token (snd r) = true) ->
  forall s,
    count is_hash (apply_rules rules s) <= count is_hash s /\
    (apply_rules rules s = s \/ count is_hash (apply_rules rules s) < count is_hash s).
Proof.
  induction rules as [|r rules IH]; intros H s.
  - split; [apply Nat.le_refl | left; reflexivity].
  - rewrite apply_rules_cons.
    destruct (H r (or_introl eq_refl)) as [W T].
    destruct (substituted_hashes (fst r) (snd r) W T s _
                (replace_color_substituted (fst r) (snd r) W s)) as [A1 A2].
    destruct (IH (fun r' Hr' => H r' (or_intror Hr'))
                (replace_color (fst r) (snd r) s)) as [B1 B2].
    split; [lia|].
    destruct A2 as [A2 | A2]; [rewrite A2 in *|]; destruct B2 as [B2 | B2];
      try (right; lia).
    left. exact B2.
Qed.

Lemma apply_rules_marks rules :
  (forall r, In r rules -> wf_hex (fst r) = true /\ wf_token (snd r) = true) ->
  forall s, filter is_mark (apply_rules rules s) = filter is_mark s.
Proof.
  induction rules as [|r rules IH]; intros H s; [reflexivity|].
  rewrite apply_rules_cons, (IH (fun r' Hr' => H r' (or_intror Hr'))).
  destruct (H r (or_introl eq_refl)) as [W T].
  apply (substituted_marks (fst r) (snd r) W T), replace_color_substituted, W.
Qed.

Lemma apply_rules_lines rules :
  (forall r, In r rules -> wf_hex (fst r) = true /\ wf_token (snd r) = true) ->
  forall a b,
    apply_rules rules (a ++ nl :: b) = apply_rules rules a ++ nl :: apply_rules rules b.
Proof.
  induction rules as [|r rules IH]; intros H a b; [reflexivity|].
  rewrite !apply_rules_cons.
  destruct (H r (or_introl eq_refl)) as [W _].
  rewrite (replace_color_lines (fst r) (snd r) W).
  apply IH. intros r' Hr'. apply H. right. exact Hr'.
Qed.

Lemma apply_rules_no_quote rules s : no_quote s = true -> apply_rules rules s = s.
Proof.
  intros H. induction rules as [|r rules IH]; [reflexivity|].
  rewrite apply_rules_cons, replace_color_id_no_quote; assumption.
Qed.

Lemma apply_mappings_no_hash s : no_hash s = true -> apply_mappings s = s.
Proof.
  intros H. apply apply_rules_absent. intros r Hr.
  apply occurs_ci_no_hash; [apply table_rule, Hr | exact H].
Qed.

(** A map that lowers a measure whenever it changes its argument reaches a
    fixed point within as many rounds as the measure counts. *)
Lemma iter_settles (A : Type) (f : A -> A) (m : A -> nat) :
  (forall x, f x = x \/ m (f x) < m x) ->
  forall n x, m x <= n -> f (Nat.iter n f x) = Nat.iter n f x.
Proof.
  intros Hf. induction n as [|n IH]; intros x Hm.
  - change (Nat.iter 0 f x) with x. destruct (Hf x) as [E | L]; [exact E | lia].
  - rewrite Nat.iter_succ_r. destruct (Hf x) as [E | L].
    + assert (K : forall k, Nat.iter k f x = x)
        by (induction k as [|k IHk]; [reflexivity | rewrite Nat.iter_succ, IHk; exact E]).
      rewrite E, K. exact E.
    + apply IH. lia.
Qed.

(** *** When a pass changes a text *)

Lemma count_cons P c s : count P (c :: s) = count P [c] + count P s.
Proof. change (c :: s) with ([c] ++ s). apply count_app. Qed.

(** A pass whose pattern matches somewhere changes the text. *)
Lemma search_changes h tok s sk cs rest :
  wf_hex h = true -> wf_token tok = true ->
  Re.search true (color_pattern h) s = Some (sk, cs, rest) ->
  replace_color h tok s <> s.
Proof.
  intros W T E. rewrite replace_color_search, E.
  destruct (match_is_between_quotes h tok s sk cs rest E)
    as (q1 & g & occ & g' & q2 & Es & _ & _ & Ho & _ & _ & Ex).
  rewrite Ex. intros X. apply (f_equal (count is_hash)) in X.
  rewrite Es in X.
  destruct (substituted_hashes h tok W T rest _ (replace_color_substituted h tok W rest))
    as [Le _].
  destruct (token_parts tok T) as (Th & _).
  assert (Z : count is_hash tok = 0)
    by (unfold count; rewrite (filter_none is_hash tok Th); reflexivity).
  pose proof (occurrence_one_hash h W occ Ho) as O.
  rewrite !count_app in X. cbn [app] in X.
  rewrite (count_cons is_hash q1), (count_cons is_hash q1 (g ++ _)) in X.
  rewrite !count_app in X.
  rewrite (count_cons is_hash q2 rest) in X. lia.
Qed.

Lemma search_none_unchanged h tok s :
  Re.search true (color_pattern h) s = None -> replace_color h tok s = s.
Proof. intros E. rewrite replace_color_search, E. reflexivity. Qed.

(** If the rules together leave a text as it is, so does each. *)
Lemma apply_rules_fixed rules :
  (forall r, In r rules -> wf_hex (fst r) = true /\ wf_token (snd r) = true) ->
  forall s, apply_rules rules s = s ->
  forall r, In r rules -> replace_color (fst r) (snd r) s = s.
Proof.
  induction rules as [|r0 rules IH]; intros H s E r Hr; [contradiction|].
  rewrite apply_rules_cons in E.
  destruct (H r0 (or_introl eq_refl)) as [W T].
  destruct (substituted_hashes (fst r0) (snd r0) W T s _
              (replace_color_substituted (fst r0) (snd r0) W s)) as [_ A].
  destruct (apply_rules_hashes rules (fun r' Hr' => H r' (or_intror Hr'))
              (replace_color (fst r0) (snd r0) s)) as [B _].
  rewrite E in B.
  assert (E0 : replace_color (fst r0) (snd r0) s = s)
    by (destruct A as [A | A]; [exact A | lia]).
  destruct Hr as [<- | Hr]; [exact E0|].
  rewrite E0 in E. apply (IH (fun r' Hr' => H r' (or_intror Hr')) s E r Hr).
Qed.

Lemma apply_rules_changes rules s :
  apply_rules rules s <> s ->
  exists r, In r rules /\ Re.search true (color_pattern (fst r)) s <> None.
Proof.
  induction rules as [|r0 rules IH]; intros H; [contradiction H; reflexivity|].
  destruct (Re.search true (color_pattern (fst r0)) s) as [m|] eqn:E.
  - exists r0. split; [left; reflexivity|]. rewrite E. discriminate.
  - rewrite apply_rules_cons, (search_none_unchanged _ (snd r0) _ E) in H.
    destruct (IH H) as (r & Hr & M). exists r. split; [right; exact Hr | exact M].
Qed.

(** ** Further laws of the run *)

Lemma rewritten_unchanged f :
  f_read_error f = None -> apply_mappings (f_text f) = f_text f -> rewritten f = f.
Proof.
  unfold rewritten. intros -> E. apply str_eqb_eq in E. rewrite E. reflexivity.
Qed.

(** The disk after one file has been handled. *)
Lemma lookup_after_other p w q :
  path_eqb q p = false -> lookup q (disk_after p w) = lookup q (disk w).
Proof.
  intros E. unfold disk_after. destruct (left_in_file p w); [|reflexivity].
  apply lookup_store_other, E.
Qed.

Lemma lookup_after p w q f :
  lookup q (disk w) = Some f ->
  lookup q (disk_after p w) = Some (if path_eqb q p then rewritten f else f).
Proof.
  intros L. destruct (path_eqb q p) eqn:E.
  - apply path_eqb_eq in E. subst q.
    unfold disk_after, left_in_file, rewritten. rewrite L.
    destruct (f_read_error f) as [r|] eqn:R; [exact L|].
    destruct (str_eqb (apply_mappings (f_text f)) (f_text f)) eqn:C; cbn [negb];
      [exact L|].
    destruct (f_write_error f) as [[x|x n]|] eqn:W; [exact L| |];
      rewrite (lookup_store p _ (disk w) f L), R, W; reflexivity.
  - rewrite lookup_after_other; assumption.
Qed.

Lemma existsb_path q l : existsb (path_eqb q) l = true <-> In q l.
Proof.
  rewrite existsb_exists. split.
  - intros (x & Hx & E). apply path_eqb_eq in E. subst x. exact Hx.
  - intros H. exists q. split; [exact H | apply path_eqb_refl].
Qed.

Lemma existsb_path_false q l : existsb (path_eqb q) l = false <-> ~ In q l.
Proof.
  split.
  - intros H Hin. apply existsb_path in Hin. congruence.
  - intros H. destruct (existsb (path_eqb q) l) eqn:E; [|reflexivity].
    exfalso. apply H, existsb_path, E.
Qed.

Lemma path_eqb_neq p q : path_eqb p q = false <-> p <> q.
Proof.
  split.
  - intros H E. apply path_eqb_eq in E. congruence.
  - intros H. destruct (path_eqb p q) eqn:E; [|reflexivity].
    exfalso. apply H, path_eqb_eq, E.
Qed.

(** What a loop does to the files: it opens only the paths its test lets
    through, leaves every other path as it was, and, when no path comes
    twice, leaves each path it read as [process_file] leaves it. *)
Lemma loop_effects skip base xs :
  Forall (fun p => is_prefix base p = true) xs ->
  forall c w, exists c' w' evs,
    for_each xs (step skip base) c w = (Done c', w') /\
    opened w' = opened w ++ evs /\
    reads evs = filter (fun p => negb (skip p)) xs /\
    files_processed c' = files_processed c + length (reads evs) /\
    incl (touched evs) (reads evs) /\
    (forall q, ~ In q (reads evs) -> lookup q (disk w') = lookup q (disk w)) /\
    (NoDup xs ->
     forall q f, lookup q (disk w) = Some f ->
       lookup q (disk w') =
       Some (if existsb (path_eqb q) (reads evs) then rewritten f else f)).
Proof.
  induction xs as [|x xs IH]; intros Hxs c w.
  - exists c, w, []. cbn. rewrite app_nil_r, Nat.add_0_r. repeat split; auto.
    intros q Hq. contradiction.
  - inversion Hxs as [|? ? Hx Hxs']; subst.
    cbn [for_each]. unfold bind, step at 1. cbn [filter].
    destruct (skip x) eqn:Sk.
    + cbn [negb ret].
      destruct (IH Hxs' c w) as (c' & w' & evs & E & Hop & Hr & Hfp & Ht & Hd & Hn).
      exists c', w', evs. repeat split; auto.
      intros N. apply Hn. inversion N; assumption.
    + rewrite (visit_eq base c x w Hx). cbn [negb].
      set (c1 := mkCounters _ _). set (w1 := mkWorld _ _ _).
      destruct (IH Hxs' c1 w1) as (c' & w' & evs & E & Hop & Hr & Hfp & Ht & Hd & Hn).
      exists c', w',
        (OpenRead x :: (if changed x w then [OpenWrite x] else []) ++ evs).
      assert (Hrd : reads (OpenRead x :: (if changed x w then [OpenWrite x] else []) ++ evs)
                    = x :: reads evs).
      { cbn [reads flat_map app]. f_equal.
        fold (reads ((if changed x w then [OpenWrite x] else []) ++ evs)).
        rewrite reads_app. destruct (changed x w); reflexivity. }
      split; [exact E|].
      split.
      { rewrite Hop. subst w1. cbn [opened]. rewrite <- app_assoc. reflexivity. }
      split; [rewrite Hrd, Hr; reflexivity|].
      split; [rewrite Hfp, Hrd; subst c1; cbn [files_processed length]; lia|].
      split.
      { rewrite Hrd. unfold touched. cbn [map]. rewrite map_app.
        intros q [<- | Hq]; [left; reflexivity|].
        apply in_app_or in Hq. destruct Hq as [Hq | Hq].
        - destruct (changed x w); [|contradiction].
          destruct Hq as [<- | []]. left. reflexivity.
        - right. apply Ht, Hq. }
      split.
      { rewrite Hrd. intros q Hq. rewrite Hd.
        - subst w1. cbn [disk]. apply lookup_after_other, path_eqb_neq.
          intros ->. apply Hq. left. reflexivity.
        - intros Hq'. apply Hq. right. exact Hq'. }
      intros N q f L. inversion N as [|? ? Hnx Nxs]; subst.
      rewrite Hrd. cbn [existsb].
      pose proof (lookup_after x w q f L) as L1.
      rewrite (Hn Nxs q _ L1).
      destruct (path_eqb q x) eqn:Eq; cbn [orb]; [|reflexivity].
      apply path_eqb_eq in Eq. subst q.
      assert (X : existsb (path_eqb x) (reads evs) = false).
      { apply existsb_path_false. rewrite Hr. intros Hin.
        apply filter_In in Hin. apply Hnx, Hin. }
      rewrite X. reflexivity.
Qed.

Lemma skip_ts_tsx p : skip_ts p = skip_tsx p.
Proof. unfold skip_ts, skip_tsx. rewrite suffix_not_d_ts, orb_false_r. reflexivity. Qed.

Lemma found_prefix base pat d :
  Forall (fun p => is_prefix base p = true) (found base pat d).
Proof. apply Forall_forall. intros p Hp. apply found_In in Hp. tauto. Qed.

Lemma found_disjoint base d p :
  In p (found base "*.tsx" d) -> In p (found base "*.ts" d) -> False.
Proof.
  intros H1 H2. apply found_In in H1, H2.
  destruct H1 as (_ & _ & _ & G1), H2 as (_ & _ & _ & G2).
  pose proof (globs_disjoint (s2l (name p))) as G.
  rewrite G1, G2 in G. discriminate G.
Qed.

(** The two loops together. *)
Lemma process_all_effects base w :
  exists c w' evs,
    process_all base w = (Done c, w') /\
    opened w' = opened w ++ evs /\
    reads evs =
    filter (fun p => negb (in_skipped_directory p)) (found base "*.tsx" (disk w)) ++
    filter (fun p => negb (in_skipped_directory p)) (found base "*.ts" (disk w)) /\
    files_processed c = length (reads evs) /\
    incl (touched evs) (reads evs) /\
    (forall q, ~ In q (reads evs) -> lookup q (disk w') = lookup q (disk w)) /\
    (NoDup (map fst (disk w)) ->
     forall q f, lookup q (disk w) = Some f ->
       lookup q (disk w') =
       Some (if existsb (path_eqb q) (reads evs) then rewritten f else f)).
Proof.
  unfold process_all, bind, rglob.
  rewrite tsx_body_step, ts_body_step.
  destruct (loop_spec skip_tsx base _ (found_prefix base "*.tsx" (disk w))
              (mkCounters 0 0) w) as (c1 & w1 & l1 & e1 & u1 & E1 & Hd1 & _).
  destruct (loop_effects skip_tsx base _ (found_prefix base "*.tsx" (disk w))
              (mkCounters 0 0) w)
    as (c1' & w1' & evs1 & E1' & Hop1 & Hr1 & Hfp1 & Ht1 & Ho1 & Hn1).
  rewrite E1 in E1'. injection E1' as <- <-. rewrite E1.
  rewrite (found_same_paths base "*.ts" (disk w) (disk w1) Hd1).
  destruct (loop_effects skip_ts base _ (found_prefix base "*.ts" (disk w))
              c1 w1) as (c2 & w2 & evs2 & E2 & Hop2 & Hr2 & Hfp2 & Ht2 & Ho2 & Hn2).
  exists c2, w2, (evs1 ++ evs2).
  assert (R2 : reads evs2 =
               filter (fun p => negb (in_skipped_directory p)) (found base "*.ts" (disk w))).
  { rewrite Hr2. apply filter_ext. intros p. rewrite skip_ts_tsx. reflexivity. }
  split; [exact E2|].
  split; [rewrite Hop2, Hop1, app_assoc; reflexivity|].
  split; [rewrite reads_app, Hr1, R2; reflexivity|].
  split; [rewrite reads_app, length_app; cbn [files_processed] in Hfp1; lia|].
  split.
  { unfold touched. rewrite map_app, reads_app. intros q Hq.
    apply in_app_or in Hq. apply in_or_app.
    destruct Hq as [Hq | Hq]; [left; apply Ht1 | right; apply Ht2]; exact Hq. }
  split.
  { rewrite reads_app. intros q Hq. rewrite Ho2, Ho1; [reflexivity| |];
      intros Hq'; apply Hq, in_or_app; [left | right]; exact Hq'. }
  intros N q f L. rewrite reads_app, existsb_app.
  assert (N1 : NoDup (found base "*.tsx" (disk w)))
    by (unfold found; apply NoDup_filter, N).
  assert (N2 : NoDup (found base "*.ts" (disk w)))
    by (unfold found; apply NoDup_filter, N).
  pose proof (Hn1 N1 q f L) as L1.
  rewrite (Hn2 N2 q _ L1).
  destruct (existsb (path_eqb q) (reads evs1)) eqn:X1;
    destruct (existsb (path_eqb q) (reads evs2)) eqn:X2; cbn [orb]; try reflexivity.
  exfalso. apply existsb_path in X1, X2. rewrite Hr1 in X1. rewrite R2 in X2.
  apply filter_In in X1, X2. apply (found_disjoint base (disk w) q); tauto.
Qed.



(** *** Counting the files a run rewrites *)







(** ** What else the table does to a text *)

(** X1: A pass of a rule of the table changes a text only by putting the
    rule's token in place of occurrences of its literal, in any letter case:
    every other character is copied, in order. *)
Theorem pass_only_substitutes_occurrences hex tok s :
  In (hex, tok) COLOR_MAPPINGS ->
  substituted hex tok s (replace_color hex tok s).
Proof.
  intros H. destruct (table_facts _ _ H) as (W & _).
  apply replace_color_substituted, W.
Qed.

Lemma pass_only_substitutes_occurrences_witness :
  substituted bg_primary bg_primary_token twice
    (replace_color bg_primary bg_primary_token twice).
Proof.
  apply (pass_only_substitutes_occurrences bg_primary bg_primary_token twice).
  left. reflexivity.
Defined.

(** X2: Applying the table never adds a [#] to a text, and removes at least
    one whenever it changes the text. *)
Theorem table_removes_hashes s :
  count is_hash (apply_mappings s) <= count is_hash s /\
  (apply_mappings s = s \/ count is_hash (apply_mappings s) < count is_hash s).
Proof. apply apply_rules_hashes. intros r. apply table_rule. Qed.

(** X3: Applying the table again and again comes to rest: after as many
    applications as the text has [#] characters, a further application
    changes nothing. *)
Theorem repeated_application_settles s :
  apply_mappings (Nat.iter (count is_hash s) apply_mappings s) =
  Nat.iter (count is_hash s) apply_mappings s.
Proof.
  apply (iter_settles str apply_mappings (count is_hash)); [|apply Nat.le_refl].
  intros x. apply (apply_rules_hashes COLOR_MAPPINGS); intros r; apply table_rule.
Qed.

(** X4: The table leaves the quote characters and the line breaks of a text
    as they are, in number and in order. *)
Theorem quotes_and_line_breaks_kept s :
  filter is_mark (apply_mappings s) = filter is_mark s.
Proof. apply apply_rules_marks. intros r. apply table_rule. Qed.

(** X5: The table works line by line: a text is rewritten as its lines are. *)
Theorem table_works_line_by_line a b :
  apply_mappings (a ++ nl :: b) = apply_mappings a ++ nl :: apply_mappings b.
Proof. apply apply_rules_lines. intros r. apply table_rule. Qed.

(** X6: Two literals of the table between one pair of quotes, the literal of
    the earlier rule standing first, are both replaced by one application of
    the table. *)
Theorem two_literals_in_one_span l1 h1 t1 l2 h2 t2 l3 pre q1 a occ1 b occ2 c q2 post :
  COLOR_MAPPINGS = l1 ++ (h1, t1) :: l2 ++ (h2, t2) :: l3 ->
  is_quote q1 = true -> is_quote q2 = true ->
  eq_ci occ1 h1 = true -> eq_ci occ2 h2 = true ->
  no_hash pre = true -> no_hash a = true -> no_nl a = true ->
  no_hash b = true -> no_quote b = true -> no_nl b = true ->
  no_hash c = true -> no_quote c = true -> no_nl c = true ->
  no_hash post = true ->
  apply_mappings (pre ++ q1 :: a ++ occ1 ++ b ++ occ2 ++ c ++ q2 :: post) =
  pre ++ q1 :: a ++ t1 ++ b ++ t2 ++ c ++ q2 :: post.
Proof.
  intros E Hq1 Hq2 Ho1 Ho2 Hpre Ha Hna Hb Hqb Hnb Hc Hqc Hnc Hpost.
  assert (In1 : In (h1, t1) COLOR_MAPPINGS)
    by (rewrite E; apply in_or_app; right; left; reflexivity).
  assert (In2 : In (h2, t2) COLOR_MAPPINGS).
  { rewrite E. apply in_or_app. right. right. apply in_or_app. right. left.
    reflexivity. }
  destruct (table_facts _ _ In1) as (W1 & T1 & Len1 & Low1).
  destruct (table_facts _ _ In2) as (W2 & T2 & Len2 & Low2).
  destruct (token_parts t1 T1) as (T1h & T1q & T1n).
  pose proof table_distinct as N. rewrite E in N.
  rewrite !map_app in N. cbn [map fst] in N. rewrite map_app in N. cbn [map fst] in N.
  assert (Other : forall r, In r (l1 ++ l2 ++ l3) ->
            wf_hex (fst r) = true /\
            (length (fst r) = length h1 /\ map Re.lower h1 <> map Re.lower (fst r)) /\
            (length (fst r) = length h2 /\ map Re.lower h2 <> map Re.lower (fst r))).
  { intros [h t] Hr. cbn [fst].
    assert (Hin : In (h, t) COLOR_MAPPINGS).
    { rewrite E. apply in_app_or in Hr. apply in_or_app.
      destruct Hr as [Hr | Hr]; [left; exact Hr|]. right. right.
      apply in_app_or in Hr. apply in_or_app.
      destruct Hr as [Hr | Hr]; [left | right; right]; exact Hr. }
    destruct (table_facts _ _ Hin) as (W & _ & Len & Low).
    assert (Hf : In h (map fst l1 ++ map fst l2 ++ map fst l3)).
    { apply in_app_or in Hr. apply in_or_app.
      destruct Hr as [Hr | Hr]; [left; apply (in_map fst _ _ Hr)|]. right.
      apply in_app_or in Hr. apply in_or_app.
      destruct Hr as [Hr | Hr]; [left | right]; apply (in_map fst _ _ Hr). }
    split; [exact W|]. rewrite Low, Low1, Low2. split; (split; [congruence|]).
    - intros <-. apply NoDup_remove_2 in N. apply N.
      apply in_app_or in Hf. apply in_or_app. destruct Hf as [Hf | Hf]; [left; exact Hf|].
      right. apply in_app_or in Hf. apply in_or_app.
      destruct Hf as [Hf | Hf]; [left | right; right]; exact Hf.
    - intros <-. rewrite app_comm_cons, app_assoc in N.
      apply NoDup_remove_2 in N. apply N.
      apply in_app_or in Hf. apply in_or_app.
      destruct Hf as [Hf | Hf]; [left; apply in_or_app; left; exact Hf|].
      apply in_app_or in Hf.
      destruct Hf as [Hf | Hf]; [left; apply in_or_app; right; right | right]; exact Hf. }
  assert (Hh1 : negb (is_hash q1) = true).
  { destruct (is_hash q1) eqn:X; [|reflexivity].
    apply is_hash_not_quote in X. rewrite X in Hq1. discriminate. }
  assert (Hh2 : negb (is_hash q2) = true).
  { destruct (is_hash q2) eqn:X; [|reflexivity].
    apply is_hash_not_quote in X. rewrite X in Hq2. discriminate. }
  assert (HA : no_hash (pre ++ q1 :: a) = true).
  { rewrite no_hash_app, Hpre. unfold no_hash. cbn [forallb]. rewrite Hh1. exact Ha. }
  assert (HC : no_hash (c ++ q2 :: post) = true).
  { rewrite no_hash_app, Hc. unfold no_hash. cbn [forallb]. rewrite Hh2. exact Hpost. }
  assert (S0 : forall r, In r (l1 ++ l2 ++ l3) ->
            occurs_ci (fst r)
              (pre ++ q1 :: a ++ occ1 ++ b ++ occ2 ++ c ++ q2 :: post) = false).
  { intros r Hr. destruct (Other r Hr) as (Wr & (L1 & D1) & (L2 & D2)).
    replace (pre ++ q1 :: a ++ occ1 ++ b ++ occ2 ++ c ++ q2 :: post)
      with ((pre ++ q1 :: a) ++ occ1 ++ b ++ occ2 ++ c ++ q2 :: post)
      by (rewrite <- app_assoc; reflexivity).
    rewrite (occurs_ci_skip (fst r) Wr _ _ HA).
    rewrite (occurs_ci_other (fst r) Wr h1 occ1 _ W1 L1 Ho1 D1).
    rewrite (occurs_ci_skip (fst r) Wr _ _ Hb).
    rewrite (occurs_ci_other (fst r) Wr h2 occ2 _ W2 L2 Ho2 D2).
    apply (occurs_ci_no_hash (fst r) Wr), HC. }
  assert (S1 : forall r, In r (l1 ++ l2 ++ l3) ->
            occurs_ci (fst r)
              (pre ++ q1 :: a ++ t1 ++ b ++ occ2 ++ c ++ q2 :: post) = false).
  { intros r Hr. destruct (Other r Hr) as (Wr & _ & (L2 & D2)).
    replace (pre ++ q1 :: a ++ t1 ++ b ++ occ2 ++ c ++ q2 :: post)
      with ((pre ++ q1 :: a) ++ t1 ++ b ++ occ2 ++ c ++ q2 :: post)
      by (rewrite <- app_assoc; reflexivity).
    rewrite (occurs_ci_skip (fst r) Wr _ _ HA).
    rewrite (occurs_ci_skip (fst r) Wr _ _ T1h).
    rewrite (occurs_ci_skip (fst r) Wr _ _ Hb).
    rewrite (occurs_ci_other (fst r) Wr h2 occ2 _ W2 L2 Ho2 D2).
    apply (occurs_ci_no_hash (fst r) Wr), HC. }
  unfold apply_mappings. rewrite E, apply_rules_app.
  rewrite (apply_rules_absent l1
             (pre ++ q1 :: a ++ occ1 ++ b ++ occ2 ++ c ++ q2 :: post))
    by (intros r Hr; apply S0, in_or_app; left; exact Hr).
  rewrite apply_rules_cons. cbn [fst snd].
  assert (P1 : replace_color h1 t1
                 (pre ++ q1 :: a ++ occ1 ++ b ++ occ2 ++ c ++ q2 :: post) =
               pre ++ q1 :: a ++ t1 ++ b ++ occ2 ++ c ++ q2 :: post).
  { pose proof (replace_color_first h1 t1 W1 pre q1 a occ1 (b ++ occ2 ++ c) q2 post
                  Hpre Ha Hna Hq1 Ho1) as P.
    rewrite <- !app_assoc in P. rewrite P; [| | |exact Hq2].
    - rewrite (replace_color_absent h1 t1 post (occurs_ci_no_hash h1 W1 post Hpost)).
      reflexivity.
    - rewrite !no_quote_app, Hqb, Hqc, (eq_ci_no_quote h2 W2 occ2 Ho2). reflexivity.
    - rewrite !no_nl_app, Hnb, Hnc, (eq_ci_no_nl h2 W2 occ2 Ho2). reflexivity. }
  rewrite P1, apply_rules_app.
  rewrite (apply_rules_absent l2
             (pre ++ q1 :: a ++ t1 ++ b ++ occ2 ++ c ++ q2 :: post))
    by (intros r Hr; apply S1, in_or_app; right; apply in_or_app; left; exact Hr).
  rewrite apply_rules_cons. cbn [fst snd].
  assert (P2 : replace_color h2 t2
                 (pre ++ q1 :: a ++ t1 ++ b ++ occ2 ++ c ++ q2 :: post) =
               pre ++ q1 :: a ++ t1 ++ b ++ t2 ++ c ++ q2 :: post).
  { pose proof (replace_color_first h2 t2 W2 pre q1 (a ++ t1 ++ b) occ2 c q2 post
                  Hpre) as P.
    rewrite <- !app_assoc in P. rewrite P; auto.
    - rewrite (replace_color_absent h2 t2 post (occurs_ci_no_hash h2 W2 post Hpost)).
      reflexivity.
    - rewrite !no_hash_app, Ha, T1h, Hb. reflexivity.
    - rewrite !no_nl_app, Hna, T1n, Hnb. reflexivity. }
  rewrite P2. apply apply_rules_absent. intros r Hr.
  assert (Hr' : In r (l1 ++ l2 ++ l3))
    by (apply in_or_app; right; apply in_or_app; right; exact Hr).
  destruct (Other r Hr') as (Wr & _).
  destruct (token_parts t2) as (T2h & _);
    [destruct (table_facts _ _ In2) as (_ & X & _); exact X|].
  replace (pre ++ q1 :: a ++ t1 ++ b ++ t2 ++ c ++ q2 :: post)
    with ((pre ++ q1 :: a) ++ t1 ++ b ++ t2 ++ c ++ q2 :: post)
    by (rewrite <- app_assoc; reflexivity).
  rewrite (occurs_ci_skip (fst r) Wr _ _ HA).
  rewrite (occurs_ci_skip (fst r) Wr _ _ T1h).
  rewrite (occurs_ci_skip (fst r) Wr _ _ Hb).
  rewrite (occurs_ci_skip (fst r) Wr _ _ T2h).
  apply (occurs_ci_no_hash (fst r) Wr), HC.
Qed.

Lemma two_literals_in_one_span_witness :
  apply_mappings
    (s2l "className=" ++ dq :: s2l "bg-[" ++ s2l "#1e1e1e" ++ s2l "] text-[" ++
     s2l "#CCCCCC" ++ s2l "]" ++ dq :: s2l " />") =
  s2l "className=" ++ dq :: s2l "bg-[" ++ s2l "var(--color-bg-primary)" ++
  s2l "] text-[" ++ s2l "var(--color-text-primary)" ++ s2l "]" ++ dq :: s2l " />".
Proof.
  apply (two_literals_in_one_span [] (s2l "#1e1e1e") (s2l "var(--color-bg-primary)")
           (firstn 3 (skipn 1 COLOR_MAPPINGS))
           (s2l "#cccccc") (s2l "var(--color-text-primary)")
           (skipn 5 COLOR_MAPPINGS)); reflexivity.
Defined.

(** X7: The table changes a text if and only if the pattern of some rule
    matches somewhere in the text as it is before any rule is applied. *)
Theorem table_changes_iff_some_rule_matches s :
  apply_mappings s <> s <->
  exists hex tok, In (hex, tok) COLOR_MAPPINGS /\
                  Re.search true (color_pattern hex) s <> None.
Proof.
  split.
  - unfold apply_mappings. intros H.
    destruct (apply_rules_changes COLOR_MAPPINGS s H) as ([hex tok] & Hr & M).
    exists hex, tok. auto.
  - unfold apply_mappings. intros (hex & tok & Hr & M) E.
    pose proof (apply_rules_fixed COLOR_MAPPINGS (fun r => table_rule r) s E
                  (hex, tok) Hr) as F.
    cbn [fst snd] in F.
    destruct (Re.search true (color_pattern hex) s) as [[[sk cs] rest]|] eqn:S;
      [|apply M; reflexivity].
    destruct (table_facts _ _ Hr) as (W & T & _).
    apply (search_changes hex tok s sk cs rest W T S F).
Qed.

(** ** What else the run does *)

Local Open Scope string_scope.

(** X8: A file that can be read and holds no [#], or no quote character, is
    left alone: [process_file] opens it for reading only, prints nothing,
    returns [False], and the loop counts it as processed and not as updated. *)
Theorem file_without_colours_left_alone base c p w text :
  fst (read_text p w) = Done text ->
  no_hash text = true \/ no_quote text = true ->
  process_file p w =
  (Done false, mkWorld (disk w) (stdout w) (opened w ++ [OpenRead p])%list) /\
  visit base c p w =
  (Done (mkCounters (files_processed c + 1) (files_updated c)),
   mkWorld (disk w) (stdout w) (opened w ++ [OpenRead p])%list).
Proof.
  intros R H.
  assert (A : apply_mappings text = text).
  { destruct H as [H | H]; [apply apply_mappings_no_hash, H|].
    apply apply_rules_no_quote, H. }
  assert (P : process_file p w =
              (Done false, mkWorld (disk w) (stdout w) (opened w ++ [OpenRead p])%list)).
  { rewrite process_file_eq.
    unfold changed, no_failure, failure, disk_after, left_in_file.
    unfold read_text, log in R. cbn [disk fst] in R.
    destruct (lookup p (disk w)) as [f|]; [|discriminate R].
    destruct (f_read_error f); [discriminate R|].
    cbn [fst] in R. injection R as ->. rewrite A.
    assert (X : str_eqb text text = true) by (apply str_eqb_eq; reflexivity).
    rewrite X. cbn [negb andb]. rewrite app_nil_r. reflexivity. }
  split; [exact P|]. unfold visit, bind. rewrite P. reflexivity.
Qed.

Lemma file_without_colours_left_alone_witness :
  process_file (cost_plan ++ ["lib"; "totals.ts"])%list small_tree =
  (Done false,
   mkWorld (disk small_tree) (stdout small_tree)
     (opened small_tree ++ [OpenRead (cost_plan ++ ["lib"; "totals.ts"])%list])%list) /\
  visit cost_plan (mkCounters 3 1) (cost_plan ++ ["lib"; "totals.ts"])%list small_tree =
  (Done (mkCounters (3 + 1) 1),
   mkWorld (disk small_tree) (stdout small_tree)
     (opened small_tree ++ [OpenRead (cost_plan ++ ["lib"; "totals.ts"])%list])%list).
Proof.
  apply (file_without_colours_left_alone cost_plan (mkCounters 3 1)
           (cost_plan ++ ["lib"; "totals.ts"])%list small_tree (s2l "export {}")).
  - reflexivity.
  - left. reflexivity.
Defined.




(** X13: Every file the two loops open, for reading or for writing, is an
    entry of the disk strictly below the base directory whose name ends in
    [.tsx] or in [.ts]. *)
Theorem only_sources_below_base_opened base w :
  exists c w' evs,
    process_all base w = (Done c, w') /\
    opened w' = (opened w ++ evs)%list /\
    forall q, In q (touched evs) ->
      In q (map fst (disk w)) /\ is_prefix base q = true /\ q <> base /\
      exists stem, s2l (name q) = (stem ++ s2l ".tsx")%list \/
                   s2l (name q) = (stem ++ s2l ".ts")%list.
Proof.
  destruct (process_all_effects base w)
    as (c & w' & evs & E & Hop & Hr & _ & Ht & _).
  exists c, w', evs. split; [exact E|]. split; [exact Hop|].
  intros q Hq. apply Ht in Hq. rewrite Hr in Hq. apply in_app_or in Hq.
  destruct Hq as [Hq | Hq]; apply filter_In in Hq; destruct Hq as [Hq _];
    apply found_In in Hq; destruct Hq as (Hin & Hp & Hn & G);
    (split; [exact Hin|]); (split; [exact Hp|]);
    (split; [intros ->; rewrite path_eqb_refl in Hn; discriminate Hn|]).
  - apply (glob_star_literal (s2l ".tsx")) in G; [|reflexivity].
    destruct G as (stem & G). exists stem. left. exact G.
  - apply (glob_star_literal (s2l ".ts")) in G; [|reflexivity].
    destruct G as (stem & G). exists stem. right. exact G.
Qed.





Local Close Scope string_scope.

Local Open Scope string_scope.

(** X9: A file below the base directory that is read, whose text the table
    changes and that is written back without error, is counted as processed
    and as updated, holds the new text, and gets one line [Updated: <path
    relative to the base directory>]. *)
Theorem changed_file_is_reported base c p w text :
  fst (read_text p w) = Done text ->
  apply_mappings text <> text ->
  fst (write_text p (apply_mappings text) (snd (read_text p w))) = Done tt ->
  is_prefix base p = true ->
  exists w',
    visit base c p w =
    (Done (mkCounters (files_processed c + 1) (files_updated c + 1)), w') /\
    stdout w' =
    (stdout w ++ [("Updated: " ++ path_str (skipn (length base) p))%string])%list /\
    opened w' = (opened w ++ [OpenRead p; OpenWrite p])%list /\
    exists f, lookup p (disk w') = Some f /\ f_text f = apply_mappings text.
Proof.
  intros R C Wr Hp. rewrite (visit_eq base c p w Hp).
  unfold changed, no_failure, failure, disk_after, left_in_file.
  unfold read_text, write_text, log in R, Wr. cbn [disk stdout opened fst snd] in R, Wr.
  destruct (lookup p (disk w)) as [f|] eqn:L; [|discriminate R].
  destruct (f_read_error f) as [r|] eqn:Re; [discriminate R|].
  cbn [fst snd disk] in R, Wr. injection R as <-. rewrite L in Wr.
  apply str_eqb_neq in C. rewrite C. cbn [negb andb].
  destruct (f_write_error f) as [[x|x n]|] eqn:We;
    [discriminate Wr | discriminate Wr |].
  eexists. split; [reflexivity|]. cbn [stdout opened disk].
  split; [reflexivity|]. split; [reflexivity|].
  rewrite (lookup_store p _ (disk w) f L). eexists. split; reflexivity.
Qed.

Lemma changed_file_is_reported_witness :
  exists w',
    visit cost_plan (mkCounters 0 0) (at_root "Sheet.tsx") small_tree =
    (Done (mkCounters (0 + 1) (0 + 1)), w') /\
    stdout w' =
    (stdout small_tree ++
     [("Updated: " ++
       path_str (skipn (length cost_plan) (at_root "Sheet.tsx")))%string])%list /\
    opened w' =
    (opened small_tree ++
     [OpenRead (at_root "Sheet.tsx"); OpenWrite (at_root "Sheet.tsx")])%list /\
    exists f, lookup (at_root "Sheet.tsx") (disk w') = Some f /\
              f_text f = apply_mappings twice.
Proof.
  apply (changed_file_is_reported cost_plan (mkCounters 0 0) (at_root "Sheet.tsx")
           small_tree twice).
  - reflexivity.
  - apply str_eqb_neq. vm_compute. reflexivity.
  - vm_compute. reflexivity.
  - reflexivity.
Defined.

Local Close Scope string_scope.



Local Open Scope string_scope.

(** X17: A write that raises after the file has been opened costs the file
    its old text: [process_file] catches the exception, prints the error
    line and returns [False], the loop counts the file as processed and not
    as updated, and the file holds only what had been written of the new
    text by then. *)
Theorem failed_write_loses_old_text base c p w f e written :
  lookup p (disk w) = Some f ->
  f_read_error f = None ->
  apply_mappings (f_text f) <> f_text f ->
  f_write_error f = Some (AfterOpen e written) ->
  exists w',
    process_file p w = (Done false, w') /\
    visit base c p w =
    (Done (mkCounters (files_processed c + 1) (files_updated c)), w') /\
    stdout w' =
    (stdout w ++ [("Error processing " ++ path_str p ++ ": " ++ e)%string])%list /\
    opened w' = (opened w ++ [OpenRead p; OpenWrite p])%list /\
    exists f', lookup p (disk w') = Some f' /\
               f_text f' = firstn written (apply_mappings (f_text f)).
Proof.
  intros L R C W. apply str_eqb_neq in C.
  assert (F : failure p w = Some e).
  { unfold failure. rewrite L, R, C, W. reflexivity. }
  assert (Ch : changed p w = true).
  { unfold changed. rewrite L, R, C. reflexivity. }
  assert (D : disk_after p w =
              store p (firstn written (apply_mappings (f_text f))) (disk w)).
  { unfold disk_after, left_in_file. rewrite L, R, C, W. reflexivity. }
  eexists. split.
  { rewrite process_file_eq. unfold no_failure. rewrite F, andb_false_r.
    reflexivity. }
  split; [rewrite (visit_failure base c p e w F); reflexivity|].
  cbn [stdout opened disk]. rewrite Ch, D.
  split; [reflexivity|]. split; [reflexivity|].
  rewrite (lookup_store p _ (disk w) f L). eexists. split; reflexivity.
Qed.

Lemma failed_write_loses_old_text_witness :
  exists w',
    process_file (at_root "Sheet.tsx") full_disk_component = (Done false, w') /\
    visit cost_plan (mkCounters 0 0) (at_root "Sheet.tsx") full_disk_component =
    (Done (mkCounters (0 + 1) 0), w') /\
    stdout w' =
    (stdout full_disk_component ++
     [("Error processing " ++ path_str (at_root "Sheet.tsx") ++ ": " ++
       "[Errno 28] No space left on device")%string])%list /\
    opened w' =
    (opened full_disk_component ++
     [OpenRead (at_root "Sheet.tsx"); OpenWrite (at_root "Sheet.tsx")])%list /\
    exists f', lookup (at_root "Sheet.tsx") (disk w') = Some f' /\
               f_text f' = firstn 0 (apply_mappings (f_text full_disk_file)).
Proof.
  apply (failed_write_loses_old_text cost_plan (mkCounters 0 0) (at_root "Sheet.tsx")
           full_disk_component full_disk_file
           "[Errno 28] No space left on device" 0).
  - reflexivity.
  - reflexivity.
  - apply str_eqb_neq. vm_compute. reflexivity.
  - reflexivity.
Defined.

Local Close Scope string_scope.
